(** * AVL tree of [Grafo.py]: insertion, rotations and edge enumeration

    A shallow embedding of the classes [Node] and [AVLTree] of [Grafo.py],
    followed by the proofs of the properties stated about them.

    Python's [Node] objects are owned by exactly one parent (or by the
    [root] field of the tree), so the in-place updates of [left], [right]
    and [height] are rendered as the construction of a new node value.
    Keys are Python integers, hence [Z]; the [height] field is a Python
    integer as well and is kept as an arbitrary [Z] in the data type: that
    it is the real height of the subtree is an invariant to be proved.
    Attribute access on [None] raises [AttributeError] in Python; the
    functions that may do so return [option], with [None] for the raise.

    The definitions come first: the data model, the operations of
    [AVLTree], the invariants, and the auxiliary notions used in the
    statements.  The lemmas and the theorems follow. *)

From stdpp Require Import base tactics option numbers list sorting gmap strings.
From Stdlib Require Import Reals Lra.

Local Open Scope Z_scope.

(** ** Data model *)

(** [Absent] is Python's [None] in a [left], [right] or [root] field. *)
Inductive node : Type :=
  | Absent
  | Node (value : Z) (left right : node) (height : Z).

(** [Node(value)]: a fresh leaf, [height = 1]. *)
Definition Node_init (value : Z) : node := Node value Absent Absent 1.

Record AVLTree : Type := { root : node }.

(** [AVLTree()] *)
Definition AVLTree_init : AVLTree := {| root := Absent |}.

(** [node.value], which raises when [node] is [None]. *)
Definition attr_value (n : node) : option Z :=
  match n with
  | Absent => None
  | Node v _ _ _ => Some v
  end.

(** ** Operations *)

Definition _get_height (n : node) : Z :=
  match n with
  | Absent => 0
  | Node _ _ _ h => h
  end.

Definition _get_balance (n : node) : Z :=
  match n with
  | Absent => 0
  | Node _ l r _ => _get_height l - _get_height r
  end.

Definition _rotate_left (z : node) : option node :=
  match z with
  | Absent => None (* z.right *)
  | Node zv zl y _ =>
      match y with
      | Absent => None (* y.left *)
      | Node yv T2 yr _ =>
          let z' := Node zv zl T2 (1 + Z.max (_get_height zl) (_get_height T2)) in
          Some (Node yv z' yr (1 + Z.max (_get_height z') (_get_height yr)))
      end
  end.

Definition _rotate_right (z : node) : option node :=
  match z with
  | Absent => None (* z.left *)
  | Node zv y zr _ =>
      match y with
      | Absent => None (* y.right *)
      | Node yv yl T3 _ =>
          let z' := Node zv T3 zr (1 + Z.max (_get_height T3) (_get_height zr)) in
          Some (Node yv yl z' (1 + Z.max (_get_height yl) (_get_height z')))
      end
  end.

(** Python's [a and b] where only [b] may raise: [b] is evaluated only
    when [a] holds. *)
Definition and_then (a : bool) (b : option bool) : option bool :=
  if a then b else Some false.

(** Steps 2 to 4 of [_insert]: the code that follows the recursive call,
    run on the node [nv] whose children are now [l] and [r]. *)
Definition rebalance (nv : Z) (l r : node) (value : Z) : option node :=
  let n := Node nv l r (1 + Z.max (_get_height l) (_get_height r)) in
  let balance := _get_balance n in
  c1 ← and_then (bool_decide (balance > 1))
         (lv ← attr_value l; Some (bool_decide (value < lv)));
  if c1 : bool then _rotate_right n else
  c2 ← and_then (bool_decide (balance < -1))
         (rv ← attr_value r; Some (bool_decide (value > rv)));
  if c2 : bool then _rotate_left n else
  c3 ← and_then (bool_decide (balance > 1))
         (lv ← attr_value l; Some (bool_decide (value > lv)));
  if c3 : bool then
    l' ← _rotate_left l;
    _rotate_right (Node nv l' r (1 + Z.max (_get_height l) (_get_height r)))
  else
  c4 ← and_then (bool_decide (balance < -1))
         (rv ← attr_value r; Some (bool_decide (value < rv)));
  if c4 : bool then
    r' ← _rotate_right r;
    _rotate_left (Node nv l r' (1 + Z.max (_get_height l) (_get_height r)))
  else
  Some n.

Fixpoint _insert (n : node) (value : Z) : option node :=
  match n with
  | Absent => Some (Node_init value)
  | Node nv l r h =>
      if decide (value < nv) then
        l' ← _insert l value; rebalance nv l' r value
      else if decide (value > nv) then
        r' ← _insert r value; rebalance nv l r' value
      else Some n
  end.

Definition insert (self : AVLTree) (value : Z) : option AVLTree :=
  r ← _insert (root self) value; Some {| root := r |}.

(** [edges] is the Python list that [_generate_edges] appends to; the
    function returns the list as it is after the call. *)
Fixpoint _generate_edges (n : node) (edges : list (Z * Z)) : list (Z * Z) :=
  match n with
  | Absent => edges
  | Node v l r _ =>
      let edges :=
        match l with
        | Absent => edges
        | Node lv _ _ _ => _generate_edges l (edges ++ [(v, lv)])
        end in
      match r with
      | Absent => edges
      | Node rv _ _ _ => _generate_edges r (edges ++ [(v, rv)])
      end
  end.

Definition generate_edges (self : AVLTree) : list (Z * Z) :=
  _generate_edges (root self) [].

(** A caller inserting the keys [values] one after the other. *)
Fixpoint insert_all (self : AVLTree) (values : list Z) : option AVLTree :=
  match values with
  | [] => Some self
  | v :: vs => self' ← insert self v; insert_all self' vs
  end.

(** Two trees used as concrete inputs: the tree after the inserts 10, 20
    and the one after 10, 20, 30. *)
Definition tree_10_20 : AVLTree :=
  {| root := Node 10 Absent (Node_init 20) 2 |}.

Definition tree_10_20_30 : AVLTree :=
  {| root := Node 20 (Node_init 10) (Node_init 30) 2 |}.

(** A tree with correct heights and BST ordering that is not balanced (it
    cannot be built by [insert]), and what [_insert] makes of it with the
    key 4. *)
Definition chain_10_5_3_1 : node :=
  Node 10 (Node 5 (Node 3 (Node_init 1) Absent 2) Absent 3) Absent 4.

Definition chain_with_4 : node :=
  Node 10 (Node 4 (Node 3 (Node_init 1) Absent 2) (Node_init 5) 3) Absent 4.

(** ** Invariants *)

(** In-order sequence of the keys. *)
Fixpoint keys (n : node) : list Z :=
  match n with
  | Absent => []
  | Node v l r _ => keys l ++ v :: keys r
  end.

(** Number of nodes. *)
Fixpoint size (n : node) : nat :=
  match n with
  | Absent => 0%nat
  | Node _ l r _ => S (size l + size r)
  end.

(** The height of a subtree as the recursion defines it: 0 for an absent
    subtree, 1 for a leaf. *)
Fixpoint true_height (n : node) : Z :=
  match n with
  | Absent => 0
  | Node _ l r _ => 1 + Z.max (true_height l) (true_height r)
  end.

(** Invariant 1: BST ordering at every node. *)
Fixpoint bst (n : node) : Prop :=
  match n with
  | Absent => True
  | Node v l r _ =>
      Forall (λ k, k < v) (keys l) ∧ Forall (λ k, v < k) (keys r) ∧
      bst l ∧ bst r
  end.

(** Invariant 2: AVL balance at every node. *)
Fixpoint balanced (n : node) : Prop :=
  match n with
  | Absent => True
  | Node _ l r _ =>
      Z.abs (true_height l - true_height r) ≤ 1 ∧ balanced l ∧ balanced r
  end.

(** Invariant 3: the stored [height] of every node is the real one. *)
Fixpoint heights_ok (n : node) : Prop :=
  match n with
  | Absent => True
  | Node _ l r h =>
      h = 1 + Z.max (true_height l) (true_height r) ∧
      heights_ok l ∧ heights_ok r
  end.

(** Invariant 4: no key occurs twice. *)
Definition unique (n : node) : Prop := NoDup (keys n).

Definition avl_inv (n : node) : Prop :=
  bst n ∧ balanced n ∧ heights_ok n ∧ unique n.

(** The set of keys stored in the tree. *)
Definition key_set (n : node) : gset Z := list_to_set (keys n).

(** Shape of a subtree whose height has just grown by the insertion of
    [value]: either a fresh leaf, or a node whose taller side is the one
    [value] went to. *)
Definition steep (value : Z) (n : node) : Prop :=
  match n with
  | Absent => False
  | Node x l r _ =>
      (l = Absent ∧ r = Absent) ∨
      (value < x ∧ true_height l = true_height r + 1) ∨
      (x < value ∧ true_height r = true_height l + 1)
  end.

(** ** Edge enumeration as the specification words it *)

(** The edges in pre-order, written after the specification: at each node
    the edge to the left child, if there is one, followed by the edges of
    the left subtree, then the same for the right child. *)
Fixpoint preorder_edges (n : node) : list (Z * Z) :=
  match n with
  | Absent => []
  | Node v l r _ =>
      match l with
      | Absent => []
      | Node lv _ _ _ => (v, lv) :: preorder_edges l
      end ++
      match r with
      | Absent => []
      | Node rv _ _ _ => (v, rv) :: preorder_edges r
      end
  end.

(** [child_edge n p c]: some node of [n] holds the key [p] and has a child
    holding the key [c]. *)
Inductive child_edge : node → Z → Z → Prop :=
  | edge_left v lv ll lr lh r h :
      child_edge (Node v (Node lv ll lr lh) r h) v lv
  | edge_right v l rv rl rr rh h :
      child_edge (Node v l (Node rv rl rr rh) h) v rv
  | edge_below_left v l r h p c :
      child_edge l p c → child_edge (Node v l r h) p c
  | edge_below_right v l r h p c :
      child_edge r p c → child_edge (Node v l r h) p c.

(** The mirror image of a tree: left and right exchanged at every node. *)
Fixpoint mirror (n : node) : node :=
  match n with
  | Absent => Absent
  | Node v l r h => Node v (mirror r) (mirror l) h
  end.

(** ** Insertion with a record of the rotations performed

    [_insert_log] is [_insert] with one addition: next to the tree it
    returns the rotations that were applied, in the order of the calls,
    each with the key of the node [z] it was applied to.  Lemma
    [insert_log_erase] shows that dropping the record gives [_insert]. *)

Inductive rotation : Type :=
  | RotateLeft (z : Z)
  | RotateRight (z : Z).

Definition _rotate_left_log (z : node) : option (node * list rotation) :=
  zv ← attr_value z; y ← _rotate_left z; Some (y, [RotateLeft zv]).

Definition _rotate_right_log (z : node) : option (node * list rotation) :=
  zv ← attr_value z; y ← _rotate_right z; Some (y, [RotateRight zv]).

Definition rebalance_log (nv : Z) (l r : node) (value : Z)
  : option (node * list rotation) :=
  let n := Node nv l r (1 + Z.max (_get_height l) (_get_height r)) in
  let balance := _get_balance n in
  c1 ← and_then (bool_decide (balance > 1))
         (lv ← attr_value l; Some (bool_decide (value < lv)));
  if c1 : bool then _rotate_right_log n else
  c2 ← and_then (bool_decide (balance < -1))
         (rv ← attr_value r; Some (bool_decide (value > rv)));
  if c2 : bool then _rotate_left_log n else
  c3 ← and_then (bool_decide (balance > 1))
         (lv ← attr_value l; Some (bool_decide (value > lv)));
  if c3 : bool then
    '(l', log1) ← _rotate_left_log l;
    '(n', log2) ← _rotate_right_log
                    (Node nv l' r (1 + Z.max (_get_height l) (_get_height r)));
    Some (n', log1 ++ log2)
  else
  c4 ← and_then (bool_decide (balance < -1))
         (rv ← attr_value r; Some (bool_decide (value < rv)));
  if c4 : bool then
    '(r', log1) ← _rotate_right_log r;
    '(n', log2) ← _rotate_left_log
                    (Node nv l r' (1 + Z.max (_get_height l) (_get_height r)));
    Some (n', log1 ++ log2)
  else
  Some (n, []).

Fixpoint _insert_log (n : node) (value : Z) : option (node * list rotation) :=
  match n with
  | Absent => Some (Node_init value, [])
  | Node nv l r h =>
      if decide (value < nv) then
        '(l', log1) ← _insert_log l value;
        '(n', log2) ← rebalance_log nv l' r value;
        Some (n', log1 ++ log2)
      else if decide (value > nv) then
        '(r', log1) ← _insert_log r value;
        '(n', log2) ← rebalance_log nv l r' value;
        Some (n', log1 ++ log2)
      else Some (n, [])
  end.

(** ** Height against number of nodes *)

(** Logarithm in base 2 over the reals. *)
Definition log2R (x : R) : R := (ln x / ln 2)%R.

(** [min_nodes h] is the least number of nodes of an AVL tree of height
    [h]: 0, 1, 2, 4, 7, 12, ...; [min_nodes_pair h] carries two consecutive
    values so that the computation is linear in [h]. *)
Fixpoint min_nodes_pair (h : nat) : Z * Z :=
  match h with
  | O => (0, 1)
  | S h' => let '(a, b) := min_nodes_pair h' in (b, a + b + 1)
  end.

Definition min_nodes (h : nat) : Z := fst (min_nodes_pair h).

(** The first height at which the sparsest AVL tree exceeds the bound
    [1.44 * log2 (n + 2)]. *)
Definition crossover_height : nat := 1124.

(** The sparsest AVL tree of height [h], holding the keys [lo],
    [lo + 1], ... in order: the left subtree has height [h - 1] and the
    right one height [h - 2]. *)
Fixpoint fib_tree (h : nat) (lo : Z) : node :=
  match h with
  | O => Absent
  | S h1 =>
      match h1 with
      | O => Node_init lo
      | S h2 =>
          Node (lo + min_nodes h1)
               (fib_tree h1 lo) (fib_tree h2 (lo + min_nodes h1 + 1))
               (Z.of_nat h)
      end
  end.

(** The first [d] levels of a tree, with the heights that they have on
    their own. *)
Fixpoint trunc (d : nat) (n : node) : node :=
  match d, n with
  | S d', Node v l r _ =>
      Node v (trunc d' l) (trunc d' r)
        (1 + Z.max (true_height (trunc d' l)) (true_height (trunc d' r)))
  | _, _ => Absent
  end.

(** The keys at depth [d], from left to right; the root is at depth 0. *)
Fixpoint level (d : nat) (n : node) {struct n} : list Z :=
  match n with
  | Absent => []
  | Node v l r _ =>
      match d with
      | O => [v]
      | S d' => level d' l ++ level d' r
      end
  end.

(** The keys of the first [d] levels, level after level. *)
Fixpoint level_order (d : nat) (n : node) : list Z :=
  match d with
  | O => []
  | S d' => level_order d' n ++ level d' n
  end.

(** [fills lo hi a ks a']: inserting the keys [ks] one after the other
    into [a] gives [a'], and every tree on the way, [a'] included, stores
    correct heights and has a height between [lo] and [hi]. *)
Inductive fills (lo hi : Z) : node → list Z → node → Prop :=
  | fills_nil a : fills lo hi a [] a
  | fills_cons a k a1 ks a' :
      _insert a k = Some a1 → heights_ok a1 →
      lo ≤ true_height a1 ≤ hi →
      fills lo hi a1 ks a' → fills lo hi a (k :: ks) a'.

(** ** Further notions used in the statements *)

(** Pre-order sequence of the keys. *)
Fixpoint preorder (n : node) : list Z :=
  match n with
  | Absent => []
  | Node v l r _ => v :: preorder l ++ preorder r
  end.

(** [left_edge n p c]: some node of [n] holds the key [p] and its left
    child holds the key [c]; [right_edge] is the same for the right
    child. *)
Inductive left_edge : node → Z → Z → Prop :=
  | left_edge_here v lv ll lr lh r h :
      left_edge (Node v (Node lv ll lr lh) r h) v lv
  | left_edge_below_left v l r h p c :
      left_edge l p c → left_edge (Node v l r h) p c
  | left_edge_below_right v l r h p c :
      left_edge r p c → left_edge (Node v l r h) p c.

Inductive right_edge : node → Z → Z → Prop :=
  | right_edge_here v l rv rl rr rh h :
      right_edge (Node v l (Node rv rl rr rh) h) v rv
  | right_edge_below_left v l r h p c :
      right_edge l p c → right_edge (Node v l r h) p c
  | right_edge_below_right v l r h p c :
      right_edge r p c → right_edge (Node v l r h) p c.

(** [one_rebalancing n log]: the record [log] is that of at most one
    rebalancing in the tree [n], the tree before the insertion.  It is
    empty, or one rotation at a node of [n], or the two rotations of one
    double rotation: a left rotation at the left child [c] of a node [z]
    of [n] followed by a right rotation at [z], or the mirror image. *)
Inductive one_rebalancing (n : node) : list rotation → Prop :=
  | rebalancing_none : one_rebalancing n []
  | rebalancing_right z : z ∈ keys n → one_rebalancing n [RotateRight z]
  | rebalancing_left z : z ∈ keys n → one_rebalancing n [RotateLeft z]
  | rebalancing_left_right z c :
      left_edge n z c → one_rebalancing n [RotateLeft c; RotateRight z]
  | rebalancing_right_left z c :
      right_edge n z c → one_rebalancing n [RotateRight c; RotateLeft z].

(** ** The application [BinaryTreeApp]

    The callbacks of the two buttons.  The widgets are reduced to what the
    callbacks read and write: the text of the entry, and, in the order of
    the calls, the message boxes shown and the graphs handed to the layout
    and drawing functions.  Python's [int] on the text of the entry is a
    parameter [int_of : string → option Z], with [None] for [ValueError]. *)

(** What [networkx] documents of [DiGraph]: a set of nodes and a set of
    directed edges, [add_edges_from] adding every edge of the list
    together with its two end points. *)
Record DiGraph : Type := { nodes : gset Z; edges : gset (Z * Z) }.

Definition DiGraph_init : DiGraph := {| nodes := ∅; edges := ∅ |}.

Definition add_edge (g : DiGraph) (e : Z * Z) : DiGraph :=
  {| nodes := {[e.1; e.2]} ∪ nodes g; edges := {[e]} ∪ edges g |}.

Definition add_edges_from (g : DiGraph) (ebunch : list (Z * Z)) : DiGraph :=
  foldl add_edge g ebunch.

Inductive output : Type :=
  | ShowInfo (value : Z)   (* messagebox.showinfo, with the number inserted *)
  | ShowError              (* messagebox.showerror *)
  | ShowWarning            (* messagebox.showwarning *)
  | Draw (graph : DiGraph) (* spring_layout and nx.draw on [graph] *).

Record BinaryTreeApp : Type :=
  { tree : AVLTree; number_entry : string; outputs : list output }.

Definition BinaryTreeApp_init : BinaryTreeApp :=
  {| tree := AVLTree_init; number_entry := EmptyString; outputs := [] |}.

(** [None] is an exception that leaves the callback: only [ValueError] is
    caught. *)
Definition insert_number (int_of : string → option Z) (self : BinaryTreeApp)
  : option BinaryTreeApp :=
  match int_of (number_entry self) with
  | Some value =>
      t ← insert (tree self) value;
      Some {| tree := t; number_entry := EmptyString;
              outputs := outputs self ++ [ShowInfo value] |}
  | None =>
      Some {| tree := tree self; number_entry := number_entry self;
              outputs := outputs self ++ [ShowError] |}
  end.

Definition display_tree (self : BinaryTreeApp) : BinaryTreeApp :=
  match root (tree self) with
  | Absent =>
      {| tree := tree self; number_entry := number_entry self;
         outputs := outputs self ++ [ShowWarning] |}
  | Node _ _ _ _ =>
      let edges := generate_edges (tree self) in
      let graph := add_edges_from DiGraph_init edges in
      {| tree := tree self; number_entry := number_entry self;
         outputs := outputs self ++ [Draw graph] |}
  end.

(** What the user does between two callbacks. *)
Inductive event : Type :=
  | TypeText (text : string) (* edits the entry, leaving [text] in it *)
  | ClickInsert
  | ClickDisplay.

Definition handle (int_of : string → option Z) (self : BinaryTreeApp)
    (e : event) : option BinaryTreeApp :=
  match e with
  | TypeText text =>
      Some {| tree := tree self; number_entry := text;
              outputs := outputs self |}
  | ClickInsert => insert_number int_of self
  | ClickDisplay => Some (display_tree self)
  end.

Fixpoint mainloop (int_of : string → option Z) (self : BinaryTreeApp)
    (events : list event) : option BinaryTreeApp :=
  match events with
  | [] => Some self
  | e :: es => self' ← handle int_of self e; mainloop int_of self' es
  end.

(** The numbers of the success messages, in order. *)
Fixpoint shown_values (outs : list output) : list Z :=
  match outs with
  | [] => []
  | ShowInfo v :: outs' => v :: shown_values outs'
  | _ :: outs' => shown_values outs'
  end.

(** A reading of decimal digits, for use as [int_of] on concrete inputs:
    it accepts the texts made of the digits 0 to 9 only. *)
Fixpoint digits_value (s : string) (acc : Z) : option Z :=
  match s with
  | EmptyString => Some acc
  | String c s' =>
      let d := Z.of_nat (Ascii.nat_of_ascii c) - 48 in
      if decide (0 ≤ d ≤ 9) then digits_value s' (10 * acc + d) else None
  end.

Definition int_of_digits (s : string) : option Z :=
  match s with
  | EmptyString => None
  | _ => digits_value s 0
  end.

(** The application after the numbers 10, 20 and 30 have been typed and
    inserted. *)
Definition app_10_20_30 : BinaryTreeApp :=
  {| tree := tree_10_20_30; number_entry := EmptyString;
     outputs := [ShowInfo 10; ShowInfo 20; ShowInfo 30] |}.

(** [subtree s n]: [s] is [n] or lies below it. *)
Inductive subtree (s : node) : node → Prop :=
  | subtree_refl : subtree s s
  | subtree_left v l r h : subtree s l → subtree s (Node v l r h)
  | subtree_right v l r h : subtree s r → subtree s (Node v l r h).

(** ** The recursion limit

    [_insert] is recursive, one Python frame for each level of the tree it
    descends, and the interpreter raises [RecursionError] when the frames
    in use exceed its recursion limit (1000 in CPython unless
    [sys.setrecursionlimit] is called, which [Grafo.py] never does).
    [_insert_limited limit] is [_insert] run when [limit] more nested
    calls of [_insert] are allowed; the frames of the helper calls are not
    counted, so it returns at least whenever the interpreter does. *)

Inductive exn : Type :=
  | AttributeError
  | RecursionError.

Inductive outcome (A : Type) : Type :=
  | Returns (a : A)
  | Raises (e : exn).

Arguments Returns {A} a.
Arguments Raises {A} e.

(** The functions above that return [None] raise [AttributeError]. *)
Definition of_option {A : Type} (o : option A) : outcome A :=
  match o with
  | Some a => Returns a
  | None => Raises AttributeError
  end.

Fixpoint _insert_limited (limit : nat) (n : node) (value : Z) : outcome node :=
  match limit with
  | O => Raises RecursionError
  | S limit' =>
      match n with
      | Absent => Returns (Node_init value)
      | Node nv l r h =>
          if decide (value < nv) then
            match _insert_limited limit' l value with
            | Returns l' => of_option (rebalance nv l' r value)
            | Raises e => Raises e
            end
          else if decide (value > nv) then
            match _insert_limited limit' r value with
            | Returns r' => of_option (rebalance nv l r' value)
            | Raises e => Raises e
            end
          else Returns n
      end
  end.

Definition insert_limited (limit : nat) (self : AVLTree) (value : Z)
  : outcome AVLTree :=
  match _insert_limited limit (root self) value with
  | Returns r => Returns {| root := r |}
  | Raises e => Raises e
  end.

(** The keys [values] inserted one after the other, up to the first
    insert that raises. *)
Fixpoint insert_all_limited (limit : nat) (self : AVLTree) (values : list Z)
  : outcome AVLTree :=
  match values with
  | [] => Returns self
  | v :: vs =>
      match insert_limited limit self v with
      | Returns self' => insert_all_limited limit self' vs
      | Raises e => Raises e
      end
  end.

Example insert_10_20_30 :
  insert_all AVLTree_init [10; 20; 30] =
  Some {| root := Node 20 (Node 10 Absent Absent 1) (Node 30 Absent Absent 1) 2 |}.
Proof. reflexivity. Qed.

Example insert_30_10_20 :
  insert_all AVLTree_init [30; 10; 20] =
  Some {| root := Node 20 (Node 10 Absent Absent 1) (Node 30 Absent Absent 1) 2 |}.
Proof. reflexivity. Qed.

Example insert_1_to_7 :
  root <$> insert_all AVLTree_init [1; 2; 3; 4; 5; 6; 7] =
  Some (Node 4 (Node 2 (Node_init 1) (Node_init 3) 2)
               (Node 6 (Node_init 5) (Node_init 7) 2) 3).
Proof. reflexivity. Qed.

(** ** Heights *)

Lemma true_height_nonneg n : 0 ≤ true_height n.
Proof. induction n; simpl; lia. Qed.

Lemma get_height_ok n : heights_ok n → _get_height n = true_height n.
Proof. destruct n; simpl; [done | by intros [-> _]]. Qed.

(** ** The branches of [rebalance] *)

Section rebalance_cases.
Context (nv : Z) (l r : node) (value : Z).
Let b := _get_height l - _get_height r.
Let h := 1 + Z.max (_get_height l) (_get_height r).

Lemma rebalance_none : -1 ≤ b ≤ 1 → rebalance nv l r value = Some (Node nv l r h).
Proof.
  subst b h. intros Hb. unfold rebalance. simpl.
  rewrite !bool_decide_eq_false_2 by lia. done.
Qed.

Lemma rebalance_LL lv ll lr lh :
  1 < b → l = Node lv ll lr lh → value < lv →
  rebalance nv l r value = _rotate_right (Node nv l r h).
Proof.
  subst b h. intros Hb -> Hv. unfold rebalance. simpl in *.
  rewrite (bool_decide_eq_true_2 (_ > 1)) by lia. simpl.
  by rewrite bool_decide_eq_true_2 by lia.
Qed.

Lemma rebalance_LR lv ll lr lh :
  1 < b → l = Node lv ll lr lh → lv < value →
  rebalance nv l r value =
    l' ← _rotate_left l; _rotate_right (Node nv l' r h).
Proof.
  subst b h. intros Hb -> Hv. unfold rebalance. simpl in *.
  rewrite (bool_decide_eq_true_2 (_ > 1)) by lia. simpl.
  rewrite (bool_decide_eq_false_2 (value < lv)) by lia.
  rewrite (bool_decide_eq_false_2 (_ < -1)) by lia. simpl.
  by rewrite (bool_decide_eq_true_2 (value > lv)) by lia.
Qed.

Lemma rebalance_RR rv rl rr rh :
  b < -1 → r = Node rv rl rr rh → rv < value →
  rebalance nv l r value = _rotate_left (Node nv l r h).
Proof.
  subst b h. intros Hb -> Hv. unfold rebalance. simpl in *.
  rewrite (bool_decide_eq_false_2 (_ > 1)) by lia. simpl.
  rewrite (bool_decide_eq_true_2 (_ < -1)) by lia. simpl.
  by rewrite (bool_decide_eq_true_2 (value > rv)) by lia.
Qed.

Lemma rebalance_RL rv rl rr rh :
  b < -1 → r = Node rv rl rr rh → value < rv →
  rebalance nv l r value =
    r' ← _rotate_right r; _rotate_left (Node nv l r' h).
Proof.
  subst b h. intros Hb -> Hv. unfold rebalance. simpl in *.
  rewrite (bool_decide_eq_false_2 (_ > 1)) by lia. simpl.
  rewrite (bool_decide_eq_true_2 (_ < -1)) by lia. simpl.
  rewrite (bool_decide_eq_false_2 (value > rv)) by lia.
  by rewrite (bool_decide_eq_true_2 (value < rv)) by lia.
Qed.
End rebalance_cases.

(** ** Rotations *)

Lemma rotate_left_keys z z' : _rotate_left z = Some z' → keys z' = keys z.
Proof.
  destruct z as [|zv zl [|yv T2 yr yh] zh]; simpl; intros; simplify_eq.
  simpl. by rewrite <- app_assoc.
Qed.

Lemma rotate_right_keys z z' : _rotate_right z = Some z' → keys z' = keys z.
Proof.
  destruct z as [|zv [|yv yl T3 yh] zr zh]; simpl; intros; simplify_eq.
  simpl. by rewrite <- app_assoc.
Qed.

Lemma rotate_left_size z z' : _rotate_left z = Some z' → size z' = size z.
Proof.
  destruct z as [|zv zl [|yv T2 yr yh] zh]; simpl; intros; simplify_eq.
  simpl. lia.
Qed.

Lemma rotate_right_size z z' : _rotate_right z = Some z' → size z' = size z.
Proof.
  destruct z as [|zv [|yv yl T3 yh] zr zh]; simpl; intros; simplify_eq.
  simpl. lia.
Qed.

Lemma rotate_left_heights_ok zv zl yv T2 yr yh zh :
  heights_ok zl → heights_ok T2 → heights_ok yr →
  ∃ z', _rotate_left (Node zv zl (Node yv T2 yr yh) zh) = Some z' ∧
        heights_ok z' ∧
        z' = Node yv (Node zv zl T2 (1 + Z.max (true_height zl) (true_height T2))) yr
               (1 + Z.max (1 + Z.max (true_height zl) (true_height T2)) (true_height yr)).
Proof.
  intros Hl H2 Hr. eexists. split; [done|]. simpl.
  rewrite !get_height_ok by done. done.
Qed.

Lemma rotate_right_heights_ok zv yv yl T3 zr yh zh :
  heights_ok yl → heights_ok T3 → heights_ok zr →
  ∃ z', _rotate_right (Node zv (Node yv yl T3 yh) zr zh) = Some z' ∧
        heights_ok z' ∧
        z' = Node yv yl (Node zv T3 zr (1 + Z.max (true_height T3) (true_height zr)))
               (1 + Z.max (true_height yl) (1 + Z.max (true_height T3) (true_height zr))).
Proof.
  intros Hl H3 Hr. eexists. split; [done|]. simpl.
  rewrite !get_height_ok by done. done.
Qed.

Lemma rebalance_inv nv l r value n' :
  rebalance nv l r value = Some n' →
  n' = Node nv l r (1 + Z.max (_get_height l) (_get_height r)) ∨
  _rotate_right (Node nv l r (1 + Z.max (_get_height l) (_get_height r))) = Some n' ∨
  _rotate_left (Node nv l r (1 + Z.max (_get_height l) (_get_height r))) = Some n' ∨
  (∃ l', _rotate_left l = Some l' ∧
         _rotate_right (Node nv l' r (1 + Z.max (_get_height l) (_get_height r))) = Some n') ∨
  (∃ r', _rotate_right r = Some r' ∧
         _rotate_left (Node nv l r' (1 + Z.max (_get_height l) (_get_height r))) = Some n').
Proof.
  unfold rebalance, and_then. intros H.
  destruct (bool_decide (_get_balance _ > 1)), (bool_decide (_get_balance _ < -1)),
    (attr_value l) as [lv|], (attr_value r) as [rv|]; simpl in H; try done;
    repeat (destruct (bool_decide _); simpl in H; try done);
    try (destruct (_rotate_left l) as [l'|] eqn:?; simpl in H; try done);
    try (destruct (_rotate_right r) as [r'|] eqn:?; simpl in H; try done);
    naive_solver.
Qed.

Lemma rebalance_keys nv l r value n' :
  rebalance nv l r value = Some n' → keys n' = keys l ++ nv :: keys r.
Proof.
  intros [->|[H|[H|[(l'&Hl&H)|(r'&Hr&H)]]]]%rebalance_inv; [done|..].
  - by apply rotate_right_keys in H.
  - by apply rotate_left_keys in H.
  - apply rotate_right_keys in H. apply rotate_left_keys in Hl.
    simpl in H. by rewrite H, Hl.
  - apply rotate_left_keys in H. apply rotate_right_keys in Hr.
    simpl in H. by rewrite H, Hr.
Qed.

Lemma rebalance_size nv l r value n' :
  rebalance nv l r value = Some n' → size n' = S (size l + size r).
Proof.
  intros [->|[H|[H|[(l'&Hl&H)|(r'&Hr&H)]]]]%rebalance_inv; [done|..].
  - by apply rotate_right_size in H.
  - by apply rotate_left_size in H.
  - apply rotate_right_size in H. apply rotate_left_size in Hl.
    simpl in H. by rewrite H, Hl.
  - apply rotate_left_size in H. apply rotate_right_size in Hr.
    simpl in H. by rewrite H, Hr.
Qed.

(** ** Rebalancing restores the AVL shape *)

Lemma rebalance_level nv l r value :
  heights_ok l → heights_ok r →
  Z.abs (true_height l - true_height r) ≤ 1 →
  rebalance nv l r value =
    Some (Node nv l r (1 + Z.max (true_height l) (true_height r))).
Proof.
  intros Hl Hr Hb. rewrite rebalance_none; rewrite !get_height_ok by done; [done|lia].
Qed.

Lemma rebalance_left nv l r value :
  heights_ok l → heights_ok r → balanced l → balanced r →
  true_height l = true_height r + 2 → steep value l →
  ∃ n', rebalance nv l r value = Some n' ∧ heights_ok n' ∧ balanced n' ∧
        true_height n' = true_height r + 2.
Proof.
  intros Hl Hr Bl Br Hh Hs.
  pose proof (true_height_nonneg r) as Hr0.
  destruct l as [|lv ll lr lh]; [done|].
  destruct Hs as [[-> ->]|[[Hv Hs]|[Hv Hs]]].
  - simpl in Hh. lia.
  - erewrite rebalance_LL; [| |done|done]; last first.
    { rewrite !get_height_ok by done. lia. }
    destruct Hl as (_ & Hll & Hlr). destruct Bl as (Bl & Bll & Blr).
    destruct (rotate_right_heights_ok nv lv ll lr r lh
                (1 + Z.max (_get_height (Node lv ll lr lh)) (_get_height r)))
      as (n' & -> & Hok & ->); [done..|].
    eexists; split; [done|]. split; [done|].
    simpl in *. repeat split; try done; lia.
  - erewrite rebalance_LR; [| |done|done]; last first.
    { rewrite !get_height_ok by done. lia. }
    destruct Hl as (_ & Hll & Hlr). destruct Bl as (Bl & Bll & Blr).
    pose proof (true_height_nonneg ll) as Hll0.
    destruct lr as [|x a b xh]; [simpl in Hs; lia|].
    destruct Hlr as (_ & Ha & Hb). destruct Blr as (Bx & Ba & Bb).
    destruct (rotate_left_heights_ok lv ll x a b xh lh)
      as (l' & -> & Hok & ->); [done..|].
    simpl.
    eexists; split; [done|].
    rewrite !get_height_ok by done.
    simpl in *. repeat split; try done; lia.
Qed.

Lemma rebalance_right nv l r value :
  heights_ok l → heights_ok r → balanced l → balanced r →
  true_height r = true_height l + 2 → steep value r →
  ∃ n', rebalance nv l r value = Some n' ∧ heights_ok n' ∧ balanced n' ∧
        true_height n' = true_height l + 2.
Proof.
  intros Hl Hr Bl Br Hh Hs.
  pose proof (true_height_nonneg l) as Hl0.
  destruct r as [|rv rl rr rh]; [done|].
  destruct Hs as [[-> ->]|[[Hv Hs]|[Hv Hs]]].
  - simpl in Hh. lia.
  - erewrite rebalance_RL; [| |done|done]; last first.
    { rewrite !get_height_ok by done. lia. }
    destruct Hr as (_ & Hrl & Hrr). destruct Br as (Br & Brl & Brr).
    pose proof (true_height_nonneg rr) as Hrr0.
    destruct rl as [|x a b xh]; [simpl in Hs; lia|].
    destruct Hrl as (_ & Ha & Hb). destruct Brl as (Bx & Ba & Bb).
    destruct (rotate_right_heights_ok rv x a b rr xh rh)
      as (r' & -> & Hok & ->); [done..|].
    simpl.
    eexists; split; [done|].
    rewrite !get_height_ok by done.
    simpl in *. repeat split; try done; lia.
  - erewrite rebalance_RR; [| |done|done]; last first.
    { rewrite !get_height_ok by done. lia. }
    destruct Hr as (_ & Hrl & Hrr). destruct Br as (Br & Brl & Brr).
    destruct (rotate_left_heights_ok nv l rv rl rr rh
                (1 + Z.max (_get_height l) (_get_height (Node rv rl rr rh))))
      as (n' & -> & Hok & ->); [done..|].
    eexists; split; [done|]. split; [done|].
    simpl in *. repeat split; try done; lia.
Qed.

(** ** Insertion keeps heights and balance, and always returns *)

Lemma insert_avl n value :
  heights_ok n → balanced n →
  ∃ n', _insert n value = Some n' ∧ heights_ok n' ∧ balanced n' ∧
        (true_height n' = true_height n ∨
         (true_height n' = true_height n + 1 ∧ steep value n')).
Proof.
  induction n as [|nv l IHl r IHr h]; intros Hok Hbal.
  { eexists; split; [done|]. simpl. repeat split; try done; try lia.
    right. split; [lia|]. by left. }
  destruct Hok as (Hh & Hl & Hr). destruct Hbal as (Hb & Bl & Br).
  simpl. destruct (decide (value < nv)) as [Hlt|Hge].
  - destruct (IHl Hl Bl) as (l' & -> & Hl' & Bl' & Hgrow). simpl.
    destruct (decide (Z.abs (true_height l' - true_height r) ≤ 1)) as [Hlev|Hun].
    + rewrite rebalance_level by done.
      eexists; split; [done|]. simpl. repeat split; try done.
      destruct Hgrow as [Heq|[Heq Hs]]; [left; lia|].
      destruct (decide (true_height l' = true_height r + 1)); [|left; lia].
      right. split; [lia|]. right. left. done.
    + destruct Hgrow as [Heq|[Heq Hs]]; [lia|].
      destruct (rebalance_left nv l' r value) as (n' & -> & Hn' & Bn' & Hth);
        [done..|lia|done|].
      eexists; split; [done|]. repeat split; try done. left. lia.
  - destruct (decide (value > nv)) as [Hgt|Heq].
    + destruct (IHr Hr Br) as (r' & -> & Hr' & Br' & Hgrow). simpl.
      destruct (decide (Z.abs (true_height l - true_height r') ≤ 1)) as [Hlev|Hun].
      * rewrite rebalance_level by done.
        eexists; split; [done|]. simpl. repeat split; try done.
        destruct Hgrow as [Heq|[Heq Hs]]; [left; lia|].
        destruct (decide (true_height r' = true_height l + 1)); [|left; lia].
        right. split; [lia|]. right. right. split; [lia|done].
      * destruct Hgrow as [Heq|[Heq Hs]]; [lia|].
        destruct (rebalance_right nv l r' value) as (n' & -> & Hn' & Bn' & Hth);
          [done..|lia|done|].
        eexists; split; [done|]. repeat split; try done. left. lia.
    + eexists; split; [done|]. simpl. repeat split; try done. by left.
Qed.

(** ** Insertion and the keys *)

Lemma insert_keys_elem n value n' :
  _insert n value = Some n' → ∀ k, k ∈ keys n' ↔ k = value ∨ k ∈ keys n.
Proof.
  revert n'. induction n as [|nv l IHl r IHr h]; intros n' H k; simpl in H.
  { simplify_eq. simpl. rewrite elem_of_cons, elem_of_nil. tauto. }
  repeat case_decide.
  - destruct (_insert l value) as [l'|] eqn:Hl'; simpl in H; [|done].
    apply rebalance_keys in H. rewrite H. simpl.
    rewrite !elem_of_app, !elem_of_cons, (IHl l' eq_refl). tauto.
  - destruct (_insert r value) as [r'|] eqn:Hr'; simpl in H; [|done].
    apply rebalance_keys in H. rewrite H. simpl.
    rewrite !elem_of_app, !elem_of_cons, (IHr r' eq_refl). tauto.
  - simplify_eq. assert (value = nv) as -> by lia. simpl.
    rewrite !elem_of_app, !elem_of_cons. tauto.
Qed.

Lemma bst_sorted n : bst n ↔ StronglySorted Z.lt (keys n).
Proof.
  induction n as [|nv l IHl r IHr h]; simpl.
  { split; [constructor|done]. }
  rewrite StronglySorted_app, StronglySorted_cons, IHl, IHr, !Forall_forall.
  split.
  - intros (Fl & Fr & Sl & Sr). repeat split; try done.
    intros x1 x2 H1 [->|H2]%elem_of_cons; [by apply Fl|].
    specialize (Fl _ H1). specialize (Fr _ H2). lia.
  - intros (F & Sl & Fr & Sr). repeat split; try done.
    intros x Hx. apply (F x nv); [done|]. by left.
Qed.

Lemma sorted_lt_NoDup (l : list Z) : StronglySorted Z.lt l → NoDup l.
Proof.
  induction 1 as [|x l Hs IH Hx]; constructor; [|done].
  intros Hin. rewrite Forall_forall in Hx. specialize (Hx _ Hin). lia.
Qed.

Lemma bst_unique n : bst n → unique n.
Proof. intros Hb. by apply sorted_lt_NoDup, bst_sorted. Qed.

Lemma insert_bst n value n' :
  bst n → _insert n value = Some n' → bst n'.
Proof.
  revert n'. induction n as [|nv l IHl r IHr h]; intros n' Hb H; simpl in H.
  { simplify_eq. simpl. by repeat constructor. }
  destruct Hb as (Fl & Fr & Bl & Br).
  repeat case_decide.
  - destruct (_insert l value) as [l'|] eqn:Hl'; simpl in H; [|done].
    apply bst_sorted. rewrite (rebalance_keys _ _ _ _ _ H).
    change (StronglySorted Z.lt (keys (Node nv l' r 0))). apply bst_sorted.
    simpl. repeat split; try done; [|by eapply IHl].
    apply Forall_forall. intros k [->|Hk]%(insert_keys_elem _ _ _ Hl'); [done|].
    rewrite Forall_forall in Fl. by apply Fl.
  - destruct (_insert r value) as [r'|] eqn:Hr'; simpl in H; [|done].
    apply bst_sorted. rewrite (rebalance_keys _ _ _ _ _ H).
    change (StronglySorted Z.lt (keys (Node nv l r' 0))). apply bst_sorted.
    simpl. repeat split; try done; [|by eapply IHr].
    apply Forall_forall. intros k [->|Hk]%(insert_keys_elem _ _ _ Hr'); [lia|].
    rewrite Forall_forall in Fr. by apply Fr.
  - by simplify_eq.
Qed.

(** On a tree that satisfies the invariants, a key that is present is
    found and the tree is returned as it is. *)
Lemma insert_present n value :
  bst n → balanced n → heights_ok n → value ∈ keys n → _insert n value = Some n.
Proof.
  induction n as [|nv l IHl r IHr h]; intros Hb Hbal Hok Hin; simpl in *.
  { by apply elem_of_nil in Hin. }
  destruct Hb as (Fl & Fr & Bl & Br). destruct Hbal as (Hd & Bal & Bar).
  destruct Hok as (-> & Hl & Hr). rewrite Forall_forall in Fl, Fr.
  apply elem_of_app in Hin as [Hin|[->|Hin]%elem_of_cons].
  - specialize (Fl _ Hin). rewrite decide_True by done.
    rewrite IHl by done. simpl. by rewrite rebalance_level.
  - rewrite !decide_False by lia. done.
  - specialize (Fr _ Hin). rewrite decide_False, decide_True by lia.
    rewrite IHr by done. simpl. by rewrite rebalance_level.
Qed.

(** A key that is absent is stored in exactly one new node. *)
Lemma insert_absent n value n' :
  bst n → value ∉ keys n → _insert n value = Some n' →
  keys n' ≡ₚ value :: keys n ∧ size n' = S (size n).
Proof.
  revert n'. induction n as [|nv l IHl r IHr h]; intros n' Hb Hin H; simpl in *.
  { by simplify_eq. }
  destruct Hb as (Fl & Fr & Bl & Br).
  rewrite not_elem_of_app, not_elem_of_cons in Hin. destruct Hin as (Hnl & Hne & Hnr).
  repeat case_decide.
  - destruct (_insert l value) as [l'|] eqn:Hl'; simpl in H; [|done].
    destruct (IHl l' Bl Hnl eq_refl) as [Hp Hs].
    rewrite (rebalance_keys _ _ _ _ _ H), (rebalance_size _ _ _ _ _ H), Hp, Hs.
    done.
  - destruct (_insert r value) as [r'|] eqn:Hr'; simpl in H; [|done].
    destruct (IHr r' Br Hnr eq_refl) as [Hp Hs].
    rewrite (rebalance_keys _ _ _ _ _ H), (rebalance_size _ _ _ _ _ H), Hp, Hs.
    split; [|lia].
    symmetry. etrans; [apply Permutation_middle|].
    apply Permutation_app_head, perm_swap.
  - lia.
Qed.

(** ** The public [insert] *)

(** Discharges the invariants of a tree that is given in full. *)
Ltac inv_concrete :=
  repeat split; simpl; try lia; try (repeat constructor; lia);
  try (apply sorted_lt_NoDup; repeat constructor; lia).

Lemma avl_inv_init : avl_inv (root AVLTree_init).
Proof. repeat split; constructor. Qed.

Lemma insert_inv (T : AVLTree) (k : Z) :
  avl_inv (root T) → ∃ T', insert T k = Some T' ∧ avl_inv (root T').
Proof.
  intros (Hb & Hbal & Hok & _). unfold insert.
  destruct (insert_avl (root T) k Hok Hbal) as (n' & Hn' & Hok' & Hbal' & _).
  rewrite Hn'. eexists; split; [done|]. simpl.
  pose proof (insert_bst _ _ _ Hb Hn'). repeat split; try done.
  by apply bst_unique.
Qed.

Lemma insert_all_inv (T : AVLTree) (values : list Z) :
  avl_inv (root T) → ∃ T', insert_all T values = Some T' ∧ avl_inv (root T').
Proof.
  revert T. induction values as [|v vs IH]; intros T HT; simpl.
  { by eexists. }
  destruct (insert_inv T v HT) as (T1 & -> & HT1). simpl. by apply IH.
Qed.

Lemma elem_of_key_set n k : k ∈ key_set n ↔ k ∈ keys n.
Proof. unfold key_set. by rewrite elem_of_list_to_set. Qed.

(** C1. For every sequence of keys inserted into an initially empty tree,
    the tree obtained after each of the inserts (after the first [i] of
    them, for every [i]) exists, no insert raising, and satisfies the four
    invariants: BST ordering, AVL balance, correctness of every stored
    height, and uniqueness of the keys. *)
Theorem insert_preserves_invariants (values : list Z) (i : nat) :
  ∃ T, insert_all AVLTree_init (take i values) = Some T ∧
       bst (root T) ∧ balanced (root T) ∧ heights_ok (root T) ∧
       unique (root T).
Proof. apply insert_all_inv, avl_inv_init. Qed.

(** C2. On a tree that satisfies the invariants, [insert k] returns without
    raising and the key set becomes the old one with [k] added.  When [k]
    was absent the keys are the old ones plus one occurrence of [k], held
    by one more node; when [k] was present the tree is returned exactly as
    it was.  In both cases no key is stored twice. *)
Theorem insert_key_set (T : AVLTree) (k : Z) :
  avl_inv (root T) →
  ∃ T', insert T k = Some T' ∧
        key_set (root T') = key_set (root T) ∪ {[k]} ∧
        (k ∉ keys (root T) →
           keys (root T') ≡ₚ k :: keys (root T) ∧
           size (root T') = S (size (root T))) ∧
        (k ∈ keys (root T) → T' = T) ∧
        unique (root T').
Proof.
  intros HT. destruct (insert_inv T k HT) as (T' & HT' & Hinv').
  exists T'. split; [done|].
  destruct HT as (Hb & Hbal & Hok & _). destruct T as [n], T' as [n'].
  unfold insert in HT'. simpl in *.
  destruct (_insert n k) as [n1|] eqn:Hn; simplify_eq/=.
  repeat split.
  - apply set_eq. intros x.
    rewrite elem_of_union, elem_of_singleton, !elem_of_key_set.
    rewrite (insert_keys_elem _ _ _ Hn). tauto.
  - by eapply insert_absent.
  - by eapply insert_absent.
  - intros Hin. rewrite insert_present in Hn by done. by simplify_eq.
  - by destruct Hinv' as (_ & _ & _ & ?).
Qed.

Lemma insert_key_set_witness :
  ∃ T', insert tree_10_20 30 = Some T' ∧
        key_set (root T') = key_set (root tree_10_20) ∪ {[30]} ∧
        (30 ∉ keys (root tree_10_20) →
           keys (root T') ≡ₚ 30 :: keys (root tree_10_20) ∧
           size (root T') = S (size (root tree_10_20))) ∧
        (30 ∈ keys (root tree_10_20) → T' = tree_10_20) ∧
        unique (root T').
Proof. apply (insert_key_set tree_10_20 30). inv_concrete. Defined.

(** C3. Inserting a key twice in succession into a tree that satisfies the
    invariants gives the very same tree (structure, keys and stored
    heights) as inserting it once.  In particular the inserts 5, 5 into an
    empty tree leave the single node 5, for which [generate_edges] returns
    the empty list. *)
Theorem insert_idempotent (T : AVLTree) (k : Z) :
  avl_inv (root T) →
  (∃ T1, insert_all T [k] = Some T1 ∧ insert_all T [k; k] = Some T1) ∧
  (∃ T5, insert_all AVLTree_init [5; 5] = Some T5 ∧
         root T5 = Node 5 Absent Absent 1 ∧ size (root T5) = 1%nat ∧
         generate_edges T5 = []).
Proof.
  intros HT. split; [|by eexists].
  destruct (insert_inv T k HT) as (T1 & HT1 & (Hb & Hbal & Hok & _)).
  exists T1. simpl. rewrite HT1. simpl. split; [done|].
  unfold insert in *. destruct (_insert (root T) k) as [n1|] eqn:Hn; [|done].
  simpl in HT1. simplify_eq/=.
  rewrite insert_present; [done..|].
  apply (insert_keys_elem _ _ _ Hn). by left.
Qed.

Lemma insert_idempotent_witness :
  (∃ T1, insert_all tree_10_20 [30] = Some T1 ∧
         insert_all tree_10_20 [30; 30] = Some T1) ∧
  (∃ T5, insert_all AVLTree_init [5; 5] = Some T5 ∧
         root T5 = Node 5 Absent Absent 1 ∧ size (root T5) = 1%nat ∧
         generate_edges T5 = []).
Proof. apply (insert_idempotent tree_10_20 30). inv_concrete. Defined.

(** ** Edge enumeration *)

Lemma generate_edges_acc n edges :
  _generate_edges n edges = edges ++ preorder_edges n.
Proof.
  revert edges. induction n as [|v l IHl r IHr h]; intros edges; simpl.
  { by rewrite app_nil_r. }
  destruct l as [|lv ll lr lh], r as [|rv rl rr rh];
    rewrite ?IHl, ?IHr, ?app_nil_r, <- ?app_assoc; done.
Qed.

Lemma preorder_edges_child n p c :
  (p, c) ∈ preorder_edges n ↔ child_edge n p c.
Proof.
  split.
  - induction n as [|v l IHl r IHr h]; simpl; [by intros ?%elem_of_nil|].
    intros [Hin|Hin]%elem_of_app.
    + destruct l as [|lv ll lr lh]; [by apply elem_of_nil in Hin|].
      apply elem_of_cons in Hin as [[= -> ->]|Hin]; [constructor|].
      by apply edge_below_left, IHl.
    + destruct r as [|rv rl rr rh]; [by apply elem_of_nil in Hin|].
      apply elem_of_cons in Hin as [[= -> ->]|Hin]; [constructor|].
      by apply edge_below_right, IHr.
  - induction 1 as [| |v l r h p c _ IH|v l r h p c _ IH];
      cbn [preorder_edges]; apply elem_of_app.
    + left. by left.
    + right. by left.
    + left. destruct l; [by apply elem_of_nil in IH|]. by right.
    + right. destruct r; [by apply elem_of_nil in IH|]. by right.
Qed.

Lemma preorder_edges_length n : length (preorder_edges n) = (size n - 1)%nat.
Proof.
  induction n as [|v l IHl r IHr h]; simpl; [done|].
  rewrite length_app.
  destruct l, r; simpl in *; rewrite ?IHl, ?IHr; lia.
Qed.

(** C4. [generate_edges] returns the edges in the pre-order the
    specification describes, these are exactly the pairs (key of a node,
    key of one of its children) of the tree, and on the empty tree the
    result is the empty list. *)
Theorem generate_edges_preorder (T : AVLTree) :
  generate_edges T = preorder_edges (root T) ∧
  (∀ p c, (p, c) ∈ generate_edges T ↔ child_edge (root T) p c) ∧
  generate_edges AVLTree_init = [].
Proof.
  assert (generate_edges T = preorder_edges (root T)) as Heq.
  { unfold generate_edges. by rewrite generate_edges_acc. }
  split; [done|]. split; [|done].
  intros p c. rewrite Heq. apply preorder_edges_child.
Qed.

(** C5. A tree reachable by insertions that has [n] nodes yields [n - 1]
    edges when [n ≥ 1], and no edge when [n] is 0 or 1. *)
Theorem generate_edges_count (values : list Z) (T : AVLTree) :
  insert_all AVLTree_init values = Some T →
  ((1 ≤ size (root T))%nat →
     length (generate_edges T) = (size (root T) - 1)%nat ∧
     S (length (generate_edges T)) = size (root T)) ∧
  (size (root T) = 0%nat ∨ size (root T) = 1%nat →
     length (generate_edges T) = 0%nat).
Proof.
  intros _. unfold generate_edges.
  rewrite generate_edges_acc. simpl. rewrite preorder_edges_length. lia.
Qed.

Lemma generate_edges_count_witness :
  ((1 ≤ size (root tree_10_20_30))%nat →
     length (generate_edges tree_10_20_30) = (size (root tree_10_20_30) - 1)%nat ∧
     S (length (generate_edges tree_10_20_30)) = size (root tree_10_20_30)) ∧
  (size (root tree_10_20_30) = 0%nat ∨ size (root tree_10_20_30) = 1%nat →
     length (generate_edges tree_10_20_30) = 0%nat).
Proof. apply (generate_edges_count [10; 20; 30]). reflexivity. Defined.

(** ** Sequences of inserts and the in-order key sequence *)

Lemma insert_all_keys_elem (T T' : AVLTree) (values : list Z) :
  insert_all T values = Some T' →
  ∀ k, k ∈ keys (root T') ↔ k ∈ values ∨ k ∈ keys (root T).
Proof.
  revert T. induction values as [|v vs IH]; intros T H k; simpl in H.
  { simplify_eq. rewrite elem_of_nil. tauto. }
  unfold insert in H.
  destruct (_insert (root T) v) as [n1|] eqn:Hn; simpl in H; [|done].
  rewrite (IH _ H k). simpl. rewrite (insert_keys_elem _ _ _ Hn), elem_of_cons.
  tauto.
Qed.

Lemma insert_all_sorted (values : list Z) :
  ∃ T, insert_all AVLTree_init values = Some T ∧
       StronglySorted Z.lt (keys (root T)) ∧
       (∀ k, k ∈ keys (root T) ↔ k ∈ values).
Proof.
  destruct (insert_all_inv AVLTree_init values avl_inv_init)
    as (T & HT & Hb & _).
  exists T. split; [done|]. split; [by apply bst_sorted|].
  intros k. rewrite (insert_all_keys_elem _ _ _ HT k). simpl.
  rewrite elem_of_nil. tauto.
Qed.

(** C6. For distinct keys, inserting them in one order or in any
    permutation of it gives trees with the same in-order key sequence,
    which is the strictly increasing arrangement of the keys; the trees
    themselves may differ, as they do for the keys 1, 2. *)
Theorem insert_order_insensitive (ks1 ks2 : list Z) :
  NoDup ks1 → ks1 ≡ₚ ks2 →
  (∃ T1 T2, insert_all AVLTree_init ks1 = Some T1 ∧
            insert_all AVLTree_init ks2 = Some T2 ∧
            keys (root T1) = keys (root T2) ∧
            StronglySorted Z.lt (keys (root T1)) ∧
            keys (root T1) ≡ₚ ks1) ∧
  (NoDup [1; 2] ∧ [1; 2] ≡ₚ [2; 1] ∧
   insert_all AVLTree_init [1; 2] ≠ insert_all AVLTree_init [2; 1]).
Proof.
  intros Hnd Hperm. split; last first.
  { split; [|split; [apply perm_swap|done]].
    apply sorted_lt_NoDup. repeat constructor; lia. }
  destruct (insert_all_sorted ks1) as (T1 & HT1 & Hs1 & He1).
  destruct (insert_all_sorted ks2) as (T2 & HT2 & Hs2 & He2).
  exists T1, T2. repeat split; try done.
  - apply (StronglySorted_unique_strong Z.lt); [intros; lia|done..|].
    apply NoDup_Permutation; [by apply sorted_lt_NoDup..|].
    intros k. rewrite He1, He2. by rewrite Hperm.
  - apply NoDup_Permutation; [by apply sorted_lt_NoDup|done..].
Qed.

Lemma insert_order_insensitive_witness :
  (∃ T1 T2, insert_all AVLTree_init [3; 1; 2; 5; 4] = Some T1 ∧
            insert_all AVLTree_init [4; 5; 2; 1; 3] = Some T2 ∧
            keys (root T1) = keys (root T2) ∧
            StronglySorted Z.lt (keys (root T1)) ∧
            keys (root T1) ≡ₚ [3; 1; 2; 5; 4]) ∧
  (NoDup [1; 2] ∧ [1; 2] ≡ₚ [2; 1] ∧
   insert_all AVLTree_init [1; 2] ≠ insert_all AVLTree_init [2; 1]).
Proof.
  apply (insert_order_insensitive [3; 1; 2; 5; 4] [4; 5; 2; 1; 3]).
  - repeat (apply NoDup_cons_2;
              [rewrite ?elem_of_cons, elem_of_nil; lia|]).
    apply NoDup_nil_2.
  - apply (Permutation_rev [3; 1; 2; 5; 4]).
Defined.

(** ** The two rotations *)

Lemma mirror_involutive n : mirror (mirror n) = n.
Proof. induction n; simpl; congruence. Qed.

Lemma get_height_mirror n : _get_height (mirror n) = _get_height n.
Proof. by destruct n. Qed.

Lemma rotate_right_mirror z :
  _rotate_right z = mirror <$> _rotate_left (mirror z).
Proof.
  destruct z as [|zv [|yv yl T3 yh] zr zh]; simpl; try done.
  rewrite !mirror_involutive, !get_height_mirror.
  by rewrite (Z.max_comm (_get_height zr)), (Z.max_comm (_get_height yl)).
Qed.

Lemma bst_keys_eq n n' : keys n' = keys n → bst n → bst n'.
Proof. rewrite !bst_sorted. by intros ->. Qed.

(** C8. [_rotate_left], on a node [z] whose right child is [y], returns
    [y] as the new root, with [z] as its left child and the old left
    subtree [T2] of [y] as the right child of [z]; the height stored in [z]
    is recomputed first and the one stored in [y] is computed from it, so
    that with correct heights in the three subtrees all the stored heights
    of the result are the real ones.  [_rotate_right] is the same on the
    mirror image.  Both keep the in-order key sequence, hence the BST
    ordering. *)
Theorem rotations_correct (zv yv zh yh : Z) (A B C : node) :
  (let z := Node zv A (Node yv B C yh) zh in
   let zh' := 1 + Z.max (_get_height A) (_get_height B) in
   let yh' := 1 + Z.max zh' (_get_height C) in
   _rotate_left z = Some (Node yv (Node zv A B zh') C yh') ∧
   (heights_ok A → heights_ok B → heights_ok C →
      heights_ok (Node yv (Node zv A B zh') C yh') ∧
      zh' = true_height (Node zv A B zh') ∧
      yh' = true_height (Node yv (Node zv A B zh') C yh')) ∧
   keys (Node yv (Node zv A B zh') C yh') = keys z ∧
   (bst z → bst (Node yv (Node zv A B zh') C yh'))) ∧
  (let z := Node zv (Node yv A B yh) C zh in
   let zh' := 1 + Z.max (_get_height B) (_get_height C) in
   let yh' := 1 + Z.max (_get_height A) zh' in
   _rotate_right z = Some (Node yv A (Node zv B C zh') yh') ∧
   (heights_ok A → heights_ok B → heights_ok C →
      heights_ok (Node yv A (Node zv B C zh') yh') ∧
      zh' = true_height (Node zv B C zh') ∧
      yh' = true_height (Node yv A (Node zv B C zh') yh')) ∧
   keys (Node yv A (Node zv B C zh') yh') = keys z ∧
   (bst z → bst (Node yv A (Node zv B C zh') yh'))) ∧
  (∀ z, _rotate_right z = mirror <$> _rotate_left (mirror z)).
Proof.
  split; [|split; [|apply rotate_right_mirror]].
  - intros z zh' yh'. split; [done|].
    assert (keys (Node yv (Node zv A B zh') C yh') = keys z) as Hk.
    { simpl. by rewrite <- app_assoc. }
    split; [|split; [done|by apply bst_keys_eq]].
    intros HA HB HC. subst zh' yh'. simpl.
    rewrite !get_height_ok by done. done.
  - intros z zh' yh'. split; [done|].
    assert (keys (Node yv A (Node zv B C zh') yh') = keys z) as Hk.
    { simpl. by rewrite <- app_assoc. }
    split; [|split; [done|by apply bst_keys_eq]].
    intros HA HB HC. subst zh' yh'. simpl.
    rewrite !get_height_ok by done. done.
Qed.

Lemma rotations_correct_witness :
  (_rotate_left (Node 10 Absent (Node 20 Absent (Node_init 30) 2) 3) =
     Some (Node 20 (Node_init 10) (Node_init 30) 2) ∧
   heights_ok (Node 20 (Node_init 10) (Node_init 30) 2) ∧
   bst (Node 20 (Node_init 10) (Node_init 30) 2)) ∧
  (_rotate_right (Node 30 (Node 20 (Node_init 10) Absent 2) Absent 3) =
     Some (Node 20 (Node_init 10) (Node_init 30) 2) ∧
   heights_ok (Node 20 (Node_init 10) (Node_init 30) 2) ∧
   bst (Node 20 (Node_init 10) (Node_init 30) 2)).
Proof.
  split.
  - destruct (rotations_correct 10 20 3 2 Absent Absent (Node_init 30))
      as [(Hrot & Hh & _ & Hb) _].
    split; [exact Hrot|]. split; [apply Hh|apply Hb]; inv_concrete.
  - destruct (rotations_correct 30 20 3 2 (Node_init 10) Absent Absent)
      as [_ [(Hrot & Hh & _ & Hb) _]].
    split; [exact Hrot|]. split; [apply Hh|apply Hb]; inv_concrete.
Defined.

(** ** The record of rotations *)

Lemma rotate_left_log_erase z : fst <$> _rotate_left_log z = _rotate_left z.
Proof. destruct z as [|zv zl [|yv T2 yr yh] zh]; done. Qed.

Lemma rotate_right_log_erase z : fst <$> _rotate_right_log z = _rotate_right z.
Proof. destruct z as [|zv [|yv yl T3 yh] zr zh]; done. Qed.

Lemma bind_log_erase (m : option (node * list rotation)) (log1 : list rotation) :
  fst <$> ('(n', log2) ← m; Some (n', log1 ++ log2)) = fst <$> m.
Proof. by destruct m as [[??]|]. Qed.

Lemma rebalance_log_erase nv l r value :
  fst <$> rebalance_log nv l r value = rebalance nv l r value.
Proof.
  pose proof (rotate_left_log_erase l) as Hl.
  pose proof (rotate_right_log_erase r) as Hr.
  pose proof (λ l', rotate_right_log_erase
    (Node nv l' r (1 + Z.max (_get_height l) (_get_height r)))) as HR.
  pose proof (λ r', rotate_left_log_erase
    (Node nv l r' (1 + Z.max (_get_height l) (_get_height r)))) as HL.
  unfold rebalance_log, rebalance, and_then.
  generalize dependent (_rotate_left_log l).
  generalize dependent (_rotate_right_log r).
  generalize dependent (_rotate_left l).
  generalize dependent (_rotate_right r).
  intros rr rl mr Hr ml Hl. subst rr rl.
  destruct (bool_decide (_get_balance _ > 1)), (bool_decide (_get_balance _ < -1)),
    (attr_value l) as [lv|], (attr_value r) as [rv|];
    cbn [mbind option_bind]; try done;
    repeat (destruct (bool_decide _); cbn [mbind option_bind]; try done);
    try (destruct ml as [[l' log1]|]; cbn [mbind option_bind fmap option_fmap option_map fst];
         [rewrite bind_log_erase|done]);
    try (destruct mr as [[r' log1]|]; cbn [mbind option_bind fmap option_fmap option_map fst];
         [rewrite bind_log_erase|done]);
    done.
Qed.

Lemma insert_log_erase n value : fst <$> _insert_log n value = _insert n value.
Proof.
  induction n as [|nv l IHl r IHr h]; simpl; [done|].
  repeat case_decide; [| |done].
  - rewrite <- IHl. destruct (_insert_log l value) as [[l' log1]|]; simpl; [|done].
    rewrite bind_log_erase. apply rebalance_log_erase.
  - rewrite <- IHr. destruct (_insert_log r value) as [[r' log1]|]; simpl; [|done].
    rewrite bind_log_erase. apply rebalance_log_erase.
Qed.

(** C9. The inserts 10, 20, 30 into an empty tree: the first two perform no
    rotation, the third performs one rotation, a left rotation at the node
    holding 10; the tree then has root 20 with left child 10 and right
    child 30, and [generate_edges] returns [(20,10), (20,30)]. *)
Theorem insert_10_20_30_rotation :
  _insert_log Absent 10 = Some (Node_init 10, []) ∧
  _insert_log (Node_init 10) 20 = Some (root tree_10_20, []) ∧
  _insert_log (root tree_10_20) 30 = Some (root tree_10_20_30, [RotateLeft 10]) ∧
  _insert (root tree_10_20) 30 =
    _rotate_left (Node 10 Absent (Node 20 Absent (Node_init 30) 2) 3) ∧
  insert_all AVLTree_init [10; 20; 30] = Some tree_10_20_30 ∧
  root tree_10_20_30 = Node 20 (Node_init 10) (Node_init 30) 2 ∧
  generate_edges tree_10_20_30 = [(20, 10); (20, 30)].
Proof. repeat split. Qed.

(** ** Absent nodes are never dereferenced *)

(** A tree with correct heights that is not balanced: [_insert] raises on
    it, in the left rotation of the double rotation. *)
Example insert_unbalanced_raises :
  let n := Node 10 (Node 5 (Node 3 (Node_init 1) Absent 2) Absent 3) Absent 4 in
  heights_ok n ∧ bst n ∧ _insert n 20 = None.
Proof. inv_concrete. Qed.

(** C10. At a node whose children store correct heights, a balance factor
    above 1 means that the left child is present, so that reading its key
    and rotating the node to the right do not touch an absent node; below
    -1 the same holds of the right child and the left rotation.  On every
    tree with correct heights and AVL balance, hence on every tree built
    by insertions, [_insert] returns a tree: none of the branches of the
    embedding that stand for an access to an absent node is taken. *)
Theorem rebalance_null_safe :
  (∀ nv l r h, heights_ok l → heights_ok r →
     (_get_balance (Node nv l r h) > 1 →
        l ≠ Absent ∧ is_Some (attr_value l) ∧
        is_Some (_rotate_right (Node nv l r h))) ∧
     (_get_balance (Node nv l r h) < -1 →
        r ≠ Absent ∧ is_Some (attr_value r) ∧
        is_Some (_rotate_left (Node nv l r h)))) ∧
  (∀ n value, heights_ok n → balanced n → is_Some (_insert n value)) ∧
  (∀ values T value,
     insert_all AVLTree_init values = Some T → is_Some (insert T value)).
Proof.
  split; [|split].
  - intros nv l r h Hl Hr. simpl. rewrite !get_height_ok by done.
    pose proof (true_height_nonneg l). pose proof (true_height_nonneg r).
    split; intros Hb.
    + destruct l; simpl in *; [lia|]. done.
    + destruct r; simpl in *; [lia|]. done.
  - intros n value Hok Hbal.
    destruct (insert_avl n value Hok Hbal) as (n' & -> & _). done.
  - intros values T value HT.
    destruct (insert_all_inv AVLTree_init values avl_inv_init) as (T' & HT' & Hinv).
    rewrite HT in HT'. simplify_eq.
    destruct (insert_inv T' value Hinv) as (T2 & -> & _). done.
Qed.

Lemma rebalance_null_safe_witness :
  (is_Some (attr_value (Node 5 (Node_init 3) Absent 2)) ∧
   is_Some (_rotate_right (Node 10 (Node 5 (Node_init 3) Absent 2) Absent 3))) ∧
  (is_Some (attr_value (Node 20 Absent (Node_init 30) 2)) ∧
   is_Some (_rotate_left (Node 10 Absent (Node 20 Absent (Node_init 30) 2) 3))) ∧
  is_Some (_insert (Node 10 Absent (Node_init 20) 2) 30) ∧
  is_Some (insert {| root := Node 10 Absent (Node_init 20) 2 |} 30).
Proof.
  destruct rebalance_null_safe as (Hlocal & Hins & Hreach).
  split; [|split; [|split]].
  - destruct (Hlocal 10 (Node 5 (Node_init 3) Absent 2) Absent 3) as [H _];
      [inv_concrete..|].
    apply H. simpl. lia.
  - destruct (Hlocal 10 Absent (Node 20 Absent (Node_init 30) 2) 3) as [_ H];
      [inv_concrete..|].
    apply H. simpl. lia.
  - apply Hins; inv_concrete.
  - apply (Hreach [10; 20]). reflexivity.
Defined.

(** ** Every AVL tree is built by inserting its keys level after level *)

Lemma true_height_trunc d n :
  true_height (trunc d n) = Z.min (Z.of_nat d) (true_height n).
Proof.
  revert n. induction d as [|d IH]; intros n.
  { pose proof (true_height_nonneg n). simpl. lia. }
  destruct n as [|v l r h]; [simpl; lia|].
  cbn [trunc true_height]. rewrite !IH. lia.
Qed.

Lemma heights_ok_trunc d n : heights_ok (trunc d n).
Proof.
  revert n. induction d as [|d IH]; intros [|v l r h]; simpl; auto.
Qed.

Lemma size_trunc_le d n : (size (trunc d n) ≤ size n)%nat.
Proof.
  revert n. induction d as [|d IH]; intros [|v l r h]; simpl; try lia.
  pose proof (IH l). pose proof (IH r). lia.
Qed.

Lemma size_trunc_level d n :
  size (trunc (S d) n) = (size (trunc d n) + length (level d n))%nat.
Proof.
  revert n. induction d as [|d IH]; intros [|v l r h]; try done.
  change (size (trunc (S (S d)) (Node v l r h)))
    with (S (size (trunc (S d) l) + size (trunc (S d) r))).
  change (size (trunc (S d) (Node v l r h)))
    with (S (size (trunc d l) + size (trunc d r))).
  cbn [level]. rewrite length_app, !IH. lia.
Qed.

Lemma length_level_order d n : length (level_order d n) = size (trunc d n).
Proof.
  induction d as [|d IH]; [done|].
  cbn [level_order]. rewrite length_app, IH. by rewrite size_trunc_level.
Qed.

Lemma level_keys d n k : k ∈ level d n → k ∈ keys n.
Proof.
  revert d. induction n as [|v l IHl r IHr h]; intros d; simpl; [done|].
  rewrite elem_of_app, elem_of_cons. destruct d as [|d].
  - intros ->%list_elem_of_singleton. tauto.
  - intros [?|?]%elem_of_app; eauto.
Qed.

Lemma fills_app lo hi a ks b ks' c :
  fills lo hi a ks b → fills lo hi b ks' c → fills lo hi a (ks ++ ks') c.
Proof. induction 1; simpl; [done|]. intros. econstructor; eauto. Qed.

Lemma fills_weaken lo hi lo' hi' a ks b :
  lo' ≤ lo → hi ≤ hi' → fills lo hi a ks b → fills lo' hi' a ks b.
Proof. intros ??. induction 1; econstructor; eauto. lia. Qed.

Lemma fills_heights_ok lo hi a ks b :
  heights_ok a → fills lo hi a ks b → heights_ok b.
Proof. intros Ha. induction 1; auto. Qed.

Lemma fills_insert_all lo hi a ks b :
  fills lo hi a ks b → insert_all {| root := a |} ks = Some {| root := b |}.
Proof.
  induction 1 as [|a k a1 ks a' Hins _ _ _ IH]; [done|].
  simpl. unfold insert. simpl. rewrite Hins. done.
Qed.

(** Inserting below a node whose two sides stay within one level of each
    other changes that side only. *)
Lemma fills_left v b lo hi a ks a' :
  heights_ok a → heights_ok b →
  Forall (λ k, k < v) ks →
  true_height b - 1 ≤ lo → hi ≤ true_height b + 1 →
  fills lo hi a ks a' →
  fills (1 + Z.max lo (true_height b)) (1 + Z.max hi (true_height b))
    (Node v a b (1 + Z.max (true_height a) (true_height b))) ks
    (Node v a' b (1 + Z.max (true_height a') (true_height b))).
Proof.
  intros Ha Hb Hks Hlo Hhi Hf. induction Hf as [|a k a1 ks a' Hins Hok Hth Hf IH].
  { constructor. }
  apply Forall_cons in Hks as [Hk Hks].
  econstructor; [| | |by apply IH].
  - simpl. rewrite decide_True by done. rewrite Hins. simpl.
    apply rebalance_level; [done..|lia].
  - simpl. done.
  - simpl. lia.
Qed.

Lemma fills_right v a lo hi b ks b' :
  heights_ok a → heights_ok b →
  Forall (λ k, v < k) ks →
  true_height a - 1 ≤ lo → hi ≤ true_height a + 1 →
  fills lo hi b ks b' →
  fills (1 + Z.max (true_height a) lo) (1 + Z.max (true_height a) hi)
    (Node v a b (1 + Z.max (true_height a) (true_height b))) ks
    (Node v a b' (1 + Z.max (true_height a) (true_height b'))).
Proof.
  intros Ha Hb Hks Hlo Hhi Hf. induction Hf as [|b k b1 ks b' Hins Hok Hth Hf IH].
  { constructor. }
  apply Forall_cons in Hks as [Hk Hks].
  econstructor; [| | |by apply IH].
  - simpl. rewrite decide_False, decide_True by lia. rewrite Hins. simpl.
    apply rebalance_level; [done..|lia].
  - simpl. done.
  - simpl. lia.
Qed.

Lemma fill_level n d :
  bst n → balanced n →
  fills (Z.min (Z.of_nat d) (true_height n))
        (Z.min (Z.of_nat (S d)) (true_height n))
        (trunc d n) (level d n) (trunc (S d) n).
Proof.
  revert d. induction n as [|v l IHl r IHr h]; intros d Hb Hbal.
  { destruct d; constructor. }
  destruct Hb as (Fl & Fr & Bl & Br). destruct Hbal as (Hd & Bal & Bar).
  pose proof (true_height_nonneg l) as Hl0.
  pose proof (true_height_nonneg r) as Hr0.
  destruct d as [|d].
  { cbn [trunc level]. econstructor; [done|done| |constructor].
    unfold Node_init. cbn [true_height]. lia. }
  specialize (IHl d Bl Bal). specialize (IHr d Br Bar).
  assert (Forall (λ k, k < v) (level d l)) as HFl.
  { apply Forall_forall. intros k Hk%level_keys.
    rewrite Forall_forall in Fl. by apply Fl. }
  assert (Forall (λ k, v < k) (level d r)) as HFr.
  { apply Forall_forall. intros k Hk%level_keys.
    rewrite Forall_forall in Fr. by apply Fr. }
  cbn [level]. eapply fills_app.
  - eapply fills_weaken; cycle 2.
    + apply (fills_left v (trunc d r)); [apply heights_ok_trunc..|exact HFl| | |exact IHl];
        rewrite true_height_trunc; lia.
    + rewrite true_height_trunc. cbn [true_height]. lia.
    + rewrite true_height_trunc. cbn [true_height]. lia.
  - eapply fills_weaken; cycle 2.
    + apply (fills_right v (trunc (S d) l)); [apply heights_ok_trunc..|exact HFr| | |exact IHr];
        rewrite true_height_trunc; lia.
    + rewrite true_height_trunc. cbn [true_height]. lia.
    + rewrite true_height_trunc. cbn [true_height]. lia.
Qed.

Lemma fill_levels n d :
  bst n → balanced n →
  fills 0 (true_height n) Absent (level_order d n) (trunc d n).
Proof.
  intros Hb Hbal. pose proof (true_height_nonneg n) as Hn0.
  induction d as [|d IH].
  { destruct n; constructor. }
  cbn [level_order]. eapply fills_app; [exact IH|].
  eapply fills_weaken; [| |by apply fill_level]; lia.
Qed.

Lemma length_keys n : length (keys n) = size n.
Proof.
  induction n as [|v l IHl r IHr h]; simpl; [done|].
  rewrite length_app. simpl. lia.
Qed.

(** For every AVL tree there is a sequence of distinct keys, as many as the
    tree has nodes at most, whose insertion into the empty tree gives a
    tree of the same height. *)
Lemma avl_shape_reachable n :
  bst n → balanced n →
  ∃ values T,
    NoDup values ∧ insert_all AVLTree_init values = Some T ∧
    true_height (root T) = true_height n ∧
    (length values ≤ size n)%nat ∧ length values = size (root T).
Proof.
  intros Hb Hbal. set (d := Z.to_nat (true_height n)).
  pose proof (true_height_nonneg n) as Hn0.
  pose proof (fill_levels n d Hb Hbal) as Hf.
  apply fills_insert_all in Hf.
  exists (level_order d n), {| root := trunc d n |}.
  assert (length (level_order d n) = size (trunc d n)) as Hlen
    by apply length_level_order.
  repeat split; try done.
  - destruct (insert_all_inv AVLTree_init (level_order d n) avl_inv_init)
      as (T & HT & _ & _ & _ & Hu).
    change {| root := Absent |} with AVLTree_init in Hf.
    pose proof (insert_all_keys_elem _ _ _ HT) as He.
    rewrite Hf in HT. simplify_eq. simpl in *.
    apply NoDup_ListNoDup, (NoDup_incl_NoDup (l:=keys (trunc d n)));
      [by apply NoDup_ListNoDup| |].
    + rewrite length_keys. lia.
    + intros k Hk%list_elem_of_In. apply list_elem_of_In.
      apply He in Hk as [?|[]%elem_of_nil]. done.
  - simpl. rewrite true_height_trunc. lia.
  - rewrite Hlen. apply size_trunc_le.
Qed.

(** ** The least number of nodes of an AVL tree of a given height *)

Lemma min_nodes_pair_eq h : min_nodes_pair h = (min_nodes h, min_nodes (S h)).
Proof.
  induction h as [|h IH]; [done|].
  unfold min_nodes in *. simpl. rewrite IH. done.
Qed.

Lemma min_nodes_SS h :
  min_nodes (S (S h)) = min_nodes (S h) + min_nodes h + 1.
Proof.
  unfold min_nodes at 1. cbn [min_nodes_pair].
  rewrite (min_nodes_pair_eq h). cbn [fst]. lia.
Qed.

Lemma min_nodes_0 : min_nodes 0 = 0.
Proof. done. Qed.

Lemma min_nodes_1 : min_nodes 1 = 1.
Proof. done. Qed.

Lemma min_nodes_bounds h : 0 ≤ min_nodes h ≤ min_nodes (S h).
Proof.
  induction h as [|h IH]; [rewrite min_nodes_0, min_nodes_1; lia|].
  rewrite min_nodes_SS. lia.
Qed.

Lemma min_nodes_mono h h' : (h ≤ h')%nat → min_nodes h ≤ min_nodes h'.
Proof.
  induction 1 as [|h' _ IH]; [lia|]. pose proof (min_nodes_bounds h'). lia.
Qed.

Lemma min_nodes_height n :
  balanced n → min_nodes (Z.to_nat (true_height n)) ≤ Z.of_nat (size n).
Proof.
  induction n as [|v l IHl r IHr h]; intros Hbal; [done|].
  destruct Hbal as (Hd & Bl & Br). specialize (IHl Bl). specialize (IHr Br).
  pose proof (true_height_nonneg l) as Hl0.
  pose proof (true_height_nonneg r) as Hr0.
  cbn [true_height size].
  destruct (decide (true_height r ≤ true_height l)).
  - replace (Z.to_nat (1 + Z.max (true_height l) (true_height r)))
      with (S (Z.to_nat (true_height l))) by lia.
    destruct (Z.to_nat (true_height l)) as [|p] eqn:Hp.
    { rewrite min_nodes_1. lia. }
    rewrite min_nodes_SS.
    pose proof (min_nodes_mono p (Z.to_nat (true_height r)) ltac:(lia)). lia.
  - replace (Z.to_nat (1 + Z.max (true_height l) (true_height r)))
      with (S (Z.to_nat (true_height r))) by lia.
    destruct (Z.to_nat (true_height r)) as [|p] eqn:Hp.
    { rewrite min_nodes_1. lia. }
    rewrite min_nodes_SS.
    pose proof (min_nodes_mono p (Z.to_nat (true_height l)) ltac:(lia)). lia.
Qed.

(** ** The sparsest AVL trees *)

Lemma fib_tree_SS h lo :
  fib_tree (S (S h)) lo =
  Node (lo + min_nodes (S h))
       (fib_tree (S h) lo) (fib_tree h (lo + min_nodes (S h) + 1))
       (Z.of_nat (S (S h))).
Proof. done. Qed.

Lemma fib_tree_spec h lo :
  true_height (fib_tree h lo) = Z.of_nat h ∧
  Z.of_nat (size (fib_tree h lo)) = min_nodes h ∧
  Forall (λ k, lo ≤ k < lo + min_nodes h) (keys (fib_tree h lo)) ∧
  bst (fib_tree h lo) ∧ balanced (fib_tree h lo).
Proof.
  revert lo. induction h as [h IH] using lt_wf_ind. intros lo.
  destruct h as [|[|h]].
  { repeat split; constructor. }
  { repeat split; try done. rewrite min_nodes_1. apply Forall_singleton. lia. }
  rewrite fib_tree_SS.
  destruct (IH (S h) ltac:(lia) lo) as (Hh1 & Hs1 & Hk1 & Hb1 & Hbal1).
  destruct (IH h ltac:(lia) (lo + min_nodes (S h) + 1))
    as (Hh2 & Hs2 & Hk2 & Hb2 & Hbal2).
  pose proof (min_nodes_bounds h). pose proof (min_nodes_bounds (S h)).
  cbn [true_height size keys bst balanced]. rewrite Hh1, Hh2, min_nodes_SS.
  split; [lia|]. split; [lia|].
  split; [|split; [|split; [lia|done]]].
  - apply Forall_app. split; [|constructor; [lia|]].
    + eapply Forall_impl; [exact Hk1|]. simpl. lia.
    + eapply Forall_impl; [exact Hk2|]. simpl. lia.
  - split; [|split; [|done]].
    + eapply Forall_impl; [exact Hk1|]. simpl. lia.
    + eapply Forall_impl; [exact Hk2|]. simpl. lia.
Qed.

(** A sequence of at most [min_nodes h] distinct keys that builds a tree
    of height [h]. *)
Lemma worst_case_reachable (h : nat) :
  ∃ values T,
    NoDup values ∧ insert_all AVLTree_init values = Some T ∧
    true_height (root T) = Z.of_nat h ∧
    Z.of_nat (length values) ≤ min_nodes h ∧
    ((1 ≤ h)%nat → (1 ≤ length values)%nat).
Proof.
  destruct (fib_tree_spec h 0) as (Hh & Hs & _ & Hb & Hbal).
  destruct (avl_shape_reachable _ Hb Hbal) as (values & T & Hnd & HT & HhT & Hle & Hlen).
  exists values, T. repeat split; try done; [congruence|lia|].
  intros Hh1. rewrite Hlen. destruct (root T); simpl in *; lia.
Qed.

(** ** The bound 1.44 * log2 (n + 2), over the integers

    [h ≤ 1.44 * log2 (n + 2)] is [25 * h ≤ 36 * log2 (n + 2)], that is
    [2 ^ (25 * h) ≤ (n + 2) ^ 36]. *)

Lemma ln_2_pos : (0 < ln 2)%R.
Proof. rewrite <- ln_1. apply ln_increasing; lra. Qed.

Lemma log_bound_iff (h n : Z) :
  0 ≤ h → 0 ≤ n →
  (IZR h <= 1.44 * log2R (IZR (n + 2)))%R ↔ 2 ^ (25 * h) ≤ (n + 2) ^ 36.
Proof.
  intros Hh Hn. unfold log2R.
  pose proof ln_2_pos as H2.
  assert (0 < IZR (n + 2))%R as Hx by (apply IZR_lt; lia).
  assert (ln (IZR (2 ^ (25 * h))) = IZR (25 * h) * ln 2)%R as E1.
  { rewrite <- (Z2Nat.id (25 * h)) at 1 by lia.
    rewrite <- pow_IZR, ln_pow by lra. by rewrite INR_IZR_INZ, Z2Nat.id by lia. }
  assert (ln (IZR ((n + 2) ^ 36)) = 36 * ln (IZR (n + 2)))%R as E2.
  { change 36 with (Z.of_nat 36). rewrite <- pow_IZR, ln_pow by done.
    by rewrite INR_IZR_INZ. }
  assert (0 < IZR (2 ^ (25 * h)))%R as P1 by (apply IZR_lt; lia).
  assert (0 < IZR ((n + 2) ^ 36))%R as P2 by (apply IZR_lt; lia).
  assert (1.44 * (ln (IZR (n + 2)) / ln 2) * ln 2 = 1.44 * ln (IZR (n + 2)))%R
    as E3 by (field; lra).
  rewrite mult_IZR in E1.
  split.
  - intros H. apply le_IZR.
    destruct (Rle_or_lt (IZR (2 ^ (25 * h))) (IZR ((n + 2) ^ 36))) as [|Hlt]; [done|].
    apply ln_increasing in Hlt; [|done]. rewrite E1, E2 in Hlt.
    apply (Rmult_le_compat_r (ln 2)) in H; [|lra]. rewrite E3 in H. lra.
  - intros H%IZR_le.
    assert (ln (IZR (2 ^ (25 * h))) <= ln (IZR ((n + 2) ^ 36)))%R as Hln.
    { destruct H as [H|H]; [left; by apply ln_increasing|right; by rewrite H]. }
    rewrite E1, E2 in Hln.
    apply (Rmult_le_reg_r (ln 2)); [done|]. rewrite E3. lra.
Qed.

(** Two consecutive values of [min_nodes h + 1] are in a ratio between
    1.6180 and 1.6181 from [h = 10] on. *)
Lemma min_nodes_ratio h :
  (10 ≤ h)%nat →
  16180 * (min_nodes h + 1) ≤ 10000 * (min_nodes (S h) + 1) ≤
  16181 * (min_nodes h + 1).
Proof.
  induction 1 as [|h _ IH].
  - change (min_nodes 10) with 143. change (min_nodes 11) with 232. lia.
  - rewrite min_nodes_SS. lia.
Qed.

Lemma ratio_power_b : (16181 ^ 36 <=? 2 ^ 25 * 10000 ^ 36) = true.
Proof. vm_compute. reflexivity. Qed.

Lemma ratio_power : 16181 ^ 36 ≤ 2 ^ 25 * 10000 ^ 36.
Proof. exact (proj1 (Z.leb_le _ _) ratio_power_b). Qed.

Lemma bound_step h :
  (10 ≤ h)%nat →
  2 ^ (25 * Z.of_nat (S h)) ≤ (min_nodes (S h) + 2) ^ 36 →
  2 ^ (25 * Z.of_nat h) ≤ (min_nodes h + 2) ^ 36.
Proof.
  intros Hh HS. pose proof (min_nodes_ratio h Hh) as Hr.
  pose proof (min_nodes_bounds h) as Hb.
  pose proof ratio_power as Hc.
  set (x := min_nodes h + 2) in *. set (y := min_nodes (S h) + 2) in *.
  assert ((10000 * y) ^ 36 ≤ (16181 * x) ^ 36) as Hpow.
  { apply Z.pow_le_mono_l. lia. }
  rewrite !Z.pow_mul_l in Hpow.
  replace (25 * Z.of_nat (S h)) with (25 + 25 * Z.of_nat h) in HS by lia.
  rewrite Z.pow_add_r in HS by lia.
  assert (0 < 10000 ^ 36) as HA by (apply Z.pow_pos_nonneg; lia).
  assert (0 < 2 ^ 25) as HC by (apply Z.pow_pos_nonneg; lia).
  assert (0 ≤ x ^ 36) as HX by (apply Z.pow_nonneg; lia).
  set (A := 10000 ^ 36) in *. set (B := 16181 ^ 36) in *.
  set (C := 2 ^ 25) in *. set (X := x ^ 36) in *. set (Y := y ^ 36) in *.
  set (p := 2 ^ (25 * Z.of_nat h)) in *. clearbody A B C X Y p.
  apply (Z.mul_le_mono_pos_l _ _ (C * A)); [lia|].
  etrans; [|apply Z.mul_le_mono_nonneg_r; [done|exact Hc]].
  etrans; [|exact Hpow].
  replace (C * A * p) with (A * (C * p)) by lia.
  apply Z.mul_le_mono_nonneg_l; [lia|done].
Qed.

Lemma bound_descend k h :
  (10 ≤ h)%nat →
  2 ^ (25 * Z.of_nat (h + k)) ≤ (min_nodes (h + k) + 2) ^ 36 →
  2 ^ (25 * Z.of_nat h) ≤ (min_nodes h + 2) ^ 36.
Proof.
  intros Hh. induction k as [|k IH].
  { by rewrite Nat.add_0_r. }
  rewrite Nat.add_succ_r. intros HS. apply IH, bound_step; [clear -Hh; lia|done].
Qed.

(** The two comparisons at the crossover are made on the 64 leading bits
    of [min_nodes h + 2]: with [a = x / 2 ^ e] one has
    [a * 2 ^ e ≤ x < (a + 1) * 2 ^ e]. *)
Lemma pow36_lower (x e k : Z) :
  0 ≤ e → 0 ≤ k → 0 ≤ x →
  2 ^ k ≤ (x / 2 ^ e) ^ 36 → 2 ^ (k + 36 * e) ≤ x ^ 36.
Proof.
  intros He Hk Hx Hcert.
  assert (0 < 2 ^ e) as Hpos by (apply Z.pow_pos_nonneg; lia).
  pose proof (Z.mul_div_le x (2 ^ e) Hpos) as Hdiv.
  assert (0 ≤ x / 2 ^ e) as Ha by (apply Z.div_pos; lia).
  rewrite Z.pow_add_r, (Z.mul_comm 36 e), Z.pow_mul_r by lia.
  etrans; [apply Z.mul_le_mono_nonneg_r; [|exact Hcert]|].
  { apply Z.pow_nonneg. lia. }
  rewrite <- Z.pow_mul_l. apply Z.pow_le_mono_l.
  clear Hcert. set (p := 2 ^ e) in *. clearbody p. nia.
Qed.

Lemma pow36_upper (x e k : Z) :
  0 ≤ e → 0 ≤ k → 0 ≤ x →
  (x / 2 ^ e + 1) ^ 36 ≤ 2 ^ k → x ^ 36 < 2 ^ (k + 36 * e).
Proof.
  intros He Hk Hx Hcert.
  assert (0 < 2 ^ e) as Hpos by (apply Z.pow_pos_nonneg; lia).
  pose proof (Z.mul_succ_div_gt x (2 ^ e) Hpos) as Hdiv.
  assert (0 ≤ x / 2 ^ e) as Ha by (apply Z.div_pos; lia).
  rewrite Z.pow_add_r, (Z.mul_comm 36 e), Z.pow_mul_r by lia.
  eapply Z.lt_le_trans; [|apply Z.mul_le_mono_nonneg_r; [|exact Hcert]].
  2:{ apply Z.pow_nonneg. lia. }
  rewrite <- Z.pow_mul_l. apply Z.pow_lt_mono_l; [lia|].
  clear Hcert. set (p := 2 ^ e) in *. clearbody p. nia.
Qed.

Lemma bound_before_crossover_b :
  (2 ^ 2299 <=? ((min_nodes 1123 + 2) / 2 ^ 716) ^ 36) = true.
Proof. vm_compute. reflexivity. Qed.

Lemma bound_before_crossover :
  2 ^ (25 * Z.of_nat 1123) ≤ (min_nodes 1123 + 2) ^ 36.
Proof.
  change (25 * Z.of_nat 1123) with (2299 + 36 * 716).
  pose proof (min_nodes_bounds 1123) as Hb.
  apply pow36_lower; [lia..|].
  exact (proj1 (Z.leb_le _ _) bound_before_crossover_b).
Qed.

Lemma bound_at_crossover_b :
  (((min_nodes 1124 + 2) / 2 ^ 717 + 1) ^ 36 <=? 2 ^ 2288) = true.
Proof. vm_compute. reflexivity. Qed.

Lemma bound_at_crossover :
  (min_nodes crossover_height + 2) ^ 36 < 2 ^ (25 * Z.of_nat crossover_height).
Proof.
  change (25 * Z.of_nat crossover_height) with (2288 + 36 * 717).
  change crossover_height with 1124%nat.
  pose proof (min_nodes_bounds 1124) as Hb.
  apply pow36_upper; [lia..|].
  exact (proj1 (Z.leb_le _ _) bound_at_crossover_b).
Qed.

Lemma bound_small_b :
  forallb (λ h, 2 ^ (25 * Z.of_nat h) <=? (min_nodes h + 2) ^ 36) (seq 0 10)
  = true.
Proof. vm_compute. reflexivity. Qed.

Lemma bound_below h :
  (h < crossover_height)%nat →
  2 ^ (25 * Z.of_nat h) ≤ (min_nodes h + 2) ^ 36.
Proof.
  intros Hh. assert (S 1123 = crossover_height) as Hc by reflexivity.
  destruct (decide (10 ≤ h)%nat) as [H10|Hsmall].
  - apply (bound_descend (1123 - h)); [done|].
    replace (h + (1123 - h))%nat with 1123%nat by lia.
    apply bound_before_crossover.
  - pose proof bound_small_b as Hb. rewrite forallb_forall in Hb.
    apply Z.leb_le, Hb, in_seq. lia.
Qed.

(** ** Height of the tree built from [n] distinct keys *)

Lemma insert_all_distinct (values : list Z) (T : AVLTree) :
  NoDup values → insert_all AVLTree_init values = Some T →
  balanced (root T) ∧ size (root T) = length values.
Proof.
  intros Hnd HT.
  destruct (insert_all_inv AVLTree_init values avl_inv_init)
    as (T' & HT' & _ & Hbal & _ & Hu).
  rewrite HT in HT'. simplify_eq. split; [done|].
  rewrite <- length_keys. apply Permutation_length, NoDup_Permutation; [done..|].
  intros k. rewrite (insert_all_keys_elem _ _ _ HT k). simpl.
  rewrite elem_of_nil. tauto.
Qed.

(** Without regard to the recursion limit: for [n ≥ 1] distinct keys
    inserted into an empty tree, the final height [h] satisfies
    [min_nodes h ≤ n]; it is at most [1.44 * log2 (n + 2)] as long as [n]
    is below [min_nodes crossover_height], the least number of nodes of an
    AVL tree of height 1124. *)
Lemma height_bound (values : list Z) (T : AVLTree) :
  NoDup values → (1 ≤ length values)%nat →
  insert_all AVLTree_init values = Some T →
  min_nodes (Z.to_nat (true_height (root T))) ≤ Z.of_nat (length values) ∧
  (Z.of_nat (length values) < min_nodes crossover_height →
   (IZR (true_height (root T)) <=
    1.44 * log2R (IZR (Z.of_nat (length values) + 2)))%R).
Proof.
  intros Hnd Hn HT.
  destruct (insert_all_distinct values T Hnd HT) as [Hbal Hsize].
  pose proof (min_nodes_height _ Hbal) as Hmin. rewrite Hsize in Hmin.
  split; [done|]. intros Hsmall.
  pose proof (true_height_nonneg (root T)) as Hh0.
  apply log_bound_iff; [done|lia|].
  set (h := Z.to_nat (true_height (root T))) in *.
  assert (h < crossover_height)%nat as Hh.
  { destruct (decide (h < crossover_height)%nat) as [|Hge]; [done|].
    pose proof (min_nodes_mono crossover_height h ltac:(lia)). lia. }
  replace (true_height (root T)) with (Z.of_nat h) by lia.
  etrans; [by apply bound_below|].
  pose proof (min_nodes_bounds h). apply Z.pow_le_mono_l. lia.
Qed.

Lemma height_bound_witness :
  min_nodes (Z.to_nat (true_height (root tree_10_20_30))) ≤
    Z.of_nat (length [10; 20; 30]) ∧
  (IZR (true_height (root tree_10_20_30)) <=
   1.44 * log2R (IZR (Z.of_nat (length [10; 20; 30]) + 2)))%R.
Proof.
  destruct (height_bound [10; 20; 30] tree_10_20_30) as [H1 H2].
  - apply sorted_lt_NoDup. repeat constructor; lia.
  - simpl. lia.
  - reflexivity.
  - split; [exact H1|]. apply H2. vm_compute. reflexivity.
Defined.

(** Why the recursion limit matters to the bound: were [_insert] able to
    recurse without limit, some sequence of at most
    [min_nodes crossover_height] distinct keys (about 2 ^ 780 of them)
    would build a tree of height 1124, which exceeds
    [1.44 * log2 (n + 2)]. *)
Lemma unlimited_recursion_exceeds_bound :
  ¬ (∀ (values : list Z) (T : AVLTree),
       NoDup values → (1 ≤ length values)%nat →
       insert_all AVLTree_init values = Some T →
       (IZR (true_height (root T)) <=
        1.44 * log2R (IZR (Z.of_nat (length values) + 2)))%R).
Proof.
  intros Hclaim.
  destruct (worst_case_reachable crossover_height)
    as (values & T & Hnd & HT & Hh & Hle & Hpos).
  assert (1 ≤ crossover_height)%nat as H1 by (unfold crossover_height; lia).
  specialize (Hclaim values T Hnd (Hpos H1) HT).
  pose proof (true_height_nonneg (root T)) as Hh0.
  apply log_bound_iff in Hclaim; [|done|lia].
  rewrite Hh in Hclaim.
  pose proof bound_at_crossover as Hfail.
  assert ((Z.of_nat (length values) + 2) ^ 36 ≤
          (min_nodes crossover_height + 2) ^ 36) as Hmono.
  { apply Z.pow_le_mono_l. clear -Hle. lia. }
  eapply Z.lt_irrefl, Z.le_lt_trans; [|exact Hfail].
  etrans; [exact Hclaim|exact Hmono].
Qed.

(** The construction on a small case: the sparsest tree of height 4 has
    7 nodes and is rebuilt by inserting its keys level after level. *)
Example fib_tree_4_rebuilt :
  level_order 4 (fib_tree 4 0) = [4; 2; 6; 1; 3; 5; 0] ∧
  insert_all AVLTree_init (level_order 4 (fib_tree 4 0)) =
    Some {| root := fib_tree 4 0 |} ∧
  true_height (fib_tree 4 0) = 4 ∧ size (fib_tree 4 0) = 7%nat.
Proof. repeat split. Qed.

(** ** The height bound under the recursion limit *)










(** The limited run on the three keys, and the limit at work: two frames
    do not reach the bottom of a tree of height two. *)
Example insert_all_limited_samples :
  insert_all_limited 1000 AVLTree_init [10; 20; 30] = Returns tree_10_20_30 ∧
  insert_limited 2 tree_10_20_30 40 = Raises RecursionError ∧
  insert_limited 3 tree_10_20_30 40 =
    of_option (insert tree_10_20_30 40).
Proof. repeat split. Qed.

(** * Further properties of the code *)

(** ** [_insert] on trees that need not be balanced *)

Lemma rotate_left_children_ok zv zl y zh z' :
  heights_ok zl → heights_ok y →
  _rotate_left (Node zv zl y zh) = Some z' → heights_ok z'.
Proof.
  intros Hl Hy H. destruct y as [|yv T2 yr yh]; [done|].
  destruct Hy as (_ & H2 & Hr).
  destruct (rotate_left_heights_ok zv zl yv T2 yr yh zh) as (z1 & Hz1 & Hok & _);
    [done..|].
  congruence.
Qed.

Lemma rotate_right_children_ok zv y zr zh z' :
  heights_ok y → heights_ok zr →
  _rotate_right (Node zv y zr zh) = Some z' → heights_ok z'.
Proof.
  intros Hy Hr H. destruct y as [|yv yl T3 yh]; [done|].
  destruct Hy as (_ & Hl & H3).
  destruct (rotate_right_heights_ok zv yv yl T3 zr yh zh) as (z1 & Hz1 & Hok & _);
    [done..|].
  congruence.
Qed.

Lemma rotate_left_heights_kept z z' :
  heights_ok z → _rotate_left z = Some z' → heights_ok z'.
Proof.
  destruct z as [|zv zl y zh]; [done|]. intros (_ & Hl & Hy).
  by apply rotate_left_children_ok.
Qed.

Lemma rotate_right_heights_kept z z' :
  heights_ok z → _rotate_right z = Some z' → heights_ok z'.
Proof.
  destruct z as [|zv y zr zh]; [done|]. intros (_ & Hy & Hr).
  by apply rotate_right_children_ok.
Qed.

Lemma rebalance_heights_ok nv l r value n' :
  heights_ok l → heights_ok r →
  rebalance nv l r value = Some n' → heights_ok n'.
Proof.
  intros Hl Hr [->|[H|[H|[(l'&Hl'&H)|(r'&Hr'&H)]]]]%rebalance_inv.
  - simpl. by rewrite !get_height_ok.
  - eapply rotate_right_children_ok; [| |exact H]; done.
  - eapply rotate_left_children_ok; [| |exact H]; done.
  - eapply rotate_right_children_ok; [| |exact H]; [|done].
    eapply rotate_left_heights_kept; [|exact Hl']; done.
  - eapply rotate_left_children_ok; [| |exact H]; [done|].
    eapply rotate_right_heights_kept; [|exact Hr']; done.
Qed.

Lemma insert_heights_ok n value n' :
  heights_ok n → _insert n value = Some n' → heights_ok n'.
Proof.
  revert n'. induction n as [|nv l IHl r IHr h]; intros n' Hok H; simpl in H.
  { by simplify_eq. }
  destruct Hok as (Hh & Hl & Hr). repeat case_decide.
  - destruct (_insert l value) as [l'|] eqn:Hl'; simpl in H; [|done].
    eapply rebalance_heights_ok; [| |exact H]; eauto.
  - destruct (_insert r value) as [r'|] eqn:Hr'; simpl in H; [|done].
    eapply rebalance_heights_ok; [| |exact H]; eauto.
  - by simplify_eq.
Qed.

Lemma insert_size_step n value n' :
  _insert n value = Some n' → size n' = size n ∨ size n' = S (size n).
Proof.
  revert n'. induction n as [|nv l IHl r IHr h]; intros n' H; simpl in H.
  { simplify_eq. by right. }
  repeat case_decide.
  - destruct (_insert l value) as [l'|] eqn:Hl'; simpl in H; [|done].
    rewrite (rebalance_size _ _ _ _ _ H). simpl.
    destruct (IHl l' eq_refl) as [->| ->]; [by left|by right].
  - destruct (_insert r value) as [r'|] eqn:Hr'; simpl in H; [|done].
    rewrite (rebalance_size _ _ _ _ _ H). simpl.
    destruct (IHr r' eq_refl) as [->| ->]; [by left|right; lia].
  - simplify_eq. by left.
Qed.

(** X1. Whatever the tree, balanced or not, with correct stored heights or
    not: when [_insert] returns, the result is a node, its key set is the
    old one with the key added, it has the same number of nodes or one
    more, BST ordering is kept if it held, and so is the correctness of
    the stored heights. *)
Theorem insert_returns_sound (n : node) (value : Z) (n' : node) :
  _insert n value = Some n' →
  n' ≠ Absent ∧
  key_set n' = key_set n ∪ {[value]} ∧
  (size n' = size n ∨ size n' = S (size n)) ∧
  (bst n → bst n') ∧
  (heights_ok n → heights_ok n').
Proof.
  intros H. split; [|split; [|split; [|split]]].
  - intros ->. pose proof (insert_keys_elem _ _ _ H value) as Hk.
    simpl in Hk. rewrite elem_of_nil in Hk. tauto.
  - apply set_eq. intros x.
    rewrite elem_of_union, elem_of_singleton, !elem_of_key_set.
    rewrite (insert_keys_elem _ _ _ H). tauto.
  - by eapply insert_size_step.
  - intros Hb. by eapply insert_bst.
  - intros Hok. by eapply insert_heights_ok.
Qed.

Lemma insert_returns_sound_witness :
  chain_with_4 ≠ Absent ∧
  key_set chain_with_4 = key_set chain_10_5_3_1 ∪ {[4]} ∧
  (size chain_with_4 = size chain_10_5_3_1 ∨
   size chain_with_4 = S (size chain_10_5_3_1)) ∧
  (bst chain_10_5_3_1 → bst chain_with_4) ∧
  (heights_ok chain_10_5_3_1 → heights_ok chain_with_4).
Proof. apply (insert_returns_sound chain_10_5_3_1 4). reflexivity. Defined.

(** X2. On a tree with correct heights and AVL balance, [_insert] returns
    a tree whose height is the old one or the old one plus one. *)
Theorem insert_height_step (T : AVLTree) (k : Z) :
  heights_ok (root T) → balanced (root T) →
  ∃ T', insert T k = Some T' ∧
        true_height (root T) ≤ true_height (root T') ≤ true_height (root T) + 1.
Proof.
  intros Hok Hbal. unfold insert.
  destruct (insert_avl (root T) k Hok Hbal) as (n' & -> & _ & _ & Hh).
  eexists; split; [done|]. simpl. lia.
Qed.

Lemma insert_height_step_witness :
  ∃ T', insert tree_10_20 30 = Some T' ∧
        true_height (root tree_10_20) ≤ true_height (root T') ≤
        true_height (root tree_10_20) + 1.
Proof. apply (insert_height_step tree_10_20 30); inv_concrete. Defined.

(** ** The two rotations undo each other *)

(** X3. On a node whose stored heights are correct, a left rotation
    followed by a right rotation of the result gives the node back, stored
    heights included, and so does a right rotation followed by a left
    one. *)
Theorem rotations_inverse (z : node) :
  heights_ok z →
  (∀ y, _rotate_left z = Some y → _rotate_right y = Some z) ∧
  (∀ y, _rotate_right z = Some y → _rotate_left y = Some z).
Proof.
  intros Hz. split; intros y Hy.
  - destruct z as [|zv A [|yv B C yh] zh]; simpl in Hy; simplify_eq.
    destruct Hz as (-> & HA & -> & HB & HC). simpl.
    rewrite !get_height_ok by done. done.
  - destruct z as [|zv [|yv A B yh] C zh]; simpl in Hy; simplify_eq.
    destruct Hz as (-> & (-> & HA & HB) & HC). simpl.
    rewrite !get_height_ok by done. done.
Qed.

Lemma rotations_inverse_witness :
  (∀ y, _rotate_left (root tree_10_20) = Some y →
        _rotate_right y = Some (root tree_10_20)) ∧
  (∀ y, _rotate_right (root tree_10_20) = Some y →
        _rotate_left y = Some (root tree_10_20)).
Proof. apply (rotations_inverse (root tree_10_20)). inv_concrete. Defined.

(** ** When [rebalance] raises *)

(** X4. At a node whose two children store correct heights, the code that
    follows the recursive call of [_insert] raises in one situation only:
    a double rotation is called for and the inner grandchild it has to
    lift is absent (left child heavier by more than one, key greater than
    the left child's, no right child below it; or the mirror image). *)
Theorem rebalance_raises_iff (nv : Z) (l r : node) (value : Z) :
  heights_ok l → heights_ok r →
  rebalance nv l r value = None ↔
    (1 < true_height l - true_height r ∧
     ∃ lv ll lh, l = Node lv ll Absent lh ∧ lv < value) ∨
    (true_height l - true_height r < -1 ∧
     ∃ rv rr rh, r = Node rv Absent rr rh ∧ value < rv).
Proof.
  intros Hl Hr.
  pose proof (true_height_nonneg l) as Hl0.
  pose proof (true_height_nonneg r) as Hr0.
  pose proof (get_height_ok l Hl) as El. pose proof (get_height_ok r Hr) as Er.
  destruct (decide (1 < true_height l - true_height r)) as [Hb|Hb].
  - destruct l as [|lv ll lr lh]; [simpl in Hb; lia|].
    destruct (Z.lt_trichotomy value lv) as [Hv|[->|Hv]].
    + erewrite rebalance_LL; [| |done|done]; [|lia]. simpl in *.
      split; [done|]. intros [(_ & lv' & ll' & lh' & [= -> -> ? ->] & ?)|[? _]]; lia.
    + unfold rebalance, and_then. simpl in *.
      rewrite (bool_decide_eq_true_2 (_ > 1)) by lia. simpl.
      rewrite (bool_decide_eq_false_2 (lv < lv)) by lia.
      rewrite (bool_decide_eq_false_2 (_ < -1)) by lia. simpl.
      rewrite (bool_decide_eq_false_2 (lv > lv)) by lia. simpl.
      split; [done|]. intros [(_ & lv' & ll' & lh' & [= -> -> ? ->] & ?)|[? _]]; lia.
    + erewrite rebalance_LR; [| |done|done]; [|lia].
      destruct lr as [|x a b xh]; simpl in *.
      * split; [|done]. intros _. left. split; [done|]. by exists lv, ll, lh.
      * split; [done|]. intros [(_ & lv' & ll' & lh' & [=] & ?)|[? _]]; lia.
  - destruct (decide (true_height l - true_height r < -1)) as [Hb'|Hb'].
    + destruct r as [|rv rl rr rh]; [simpl in Hb'; lia|].
      destruct (Z.lt_trichotomy value rv) as [Hv|[->|Hv]].
      * erewrite rebalance_RL; [| |done|done]; [|lia].
        destruct rl as [|x a b xh]; simpl in *.
        -- split; [|done]. intros _. right. split; [done|]. by exists rv, rr, rh.
        -- split; [done|]. intros [[? _]|(_ & rv' & rr' & rh' & [=] & ?)]; lia.
      * unfold rebalance, and_then. simpl in *.
        rewrite (bool_decide_eq_false_2 (_ > 1)) by lia. simpl.
        rewrite (bool_decide_eq_true_2 (_ < -1)) by lia. simpl.
        rewrite (bool_decide_eq_false_2 (rv > rv)) by lia. simpl.
        rewrite (bool_decide_eq_false_2 (rv < rv)) by lia.
        split; [done|]. intros [[? _]|(_ & rv' & rr' & rh' & [= -> ? -> ->] & ?)]; lia.
      * erewrite rebalance_RR; [| |done|done]; [|lia]. simpl in *.
        split; [done|]. intros [[? _]|(_ & rv' & rr' & rh' & [= -> ? -> ->] & ?)]; lia.
    + rewrite rebalance_none by lia. split; [done|]. intros [[? _]|[? _]]; lia.
Qed.

Lemma rebalance_raises_iff_witness :
  rebalance 10 (Node 5 (Node 3 (Node_init 1) Absent 2) Absent 3) (Node_init 20) 20
    = None ↔
    (1 < true_height (Node 5 (Node 3 (Node_init 1) Absent 2) Absent 3) -
         true_height (Node_init 20) ∧
     ∃ lv ll lh,
       Node 5 (Node 3 (Node_init 1) Absent 2) Absent 3 = Node lv ll Absent lh ∧
       lv < 20) ∨
    (true_height (Node 5 (Node 3 (Node_init 1) Absent 2) Absent 3) -
       true_height (Node_init 20) < -1 ∧
     ∃ rv rr rh, Node_init 20 = Node rv Absent rr rh ∧ 20 < rv).
Proof.
  apply (rebalance_raises_iff 10
           (Node 5 (Node 3 (Node_init 1) Absent 2) Absent 3) (Node_init 20) 20);
    inv_concrete.
Defined.

(** ** At most one rebalancing per insertion *)

Section rebalance_log_cases.
Context (nv : Z) (l r : node) (value : Z).
Let b := _get_height l - _get_height r.
Let h := 1 + Z.max (_get_height l) (_get_height r).

Lemma rebalance_log_none :
  -1 ≤ b ≤ 1 → rebalance_log nv l r value = Some (Node nv l r h, []).
Proof.
  subst b h. intros Hb. unfold rebalance_log. simpl.
  rewrite !bool_decide_eq_false_2 by lia. done.
Qed.

Lemma rebalance_log_LL lv ll lr lh :
  1 < b → l = Node lv ll lr lh → value < lv →
  rebalance_log nv l r value = _rotate_right_log (Node nv l r h).
Proof.
  subst b h. intros Hb -> Hv. unfold rebalance_log. simpl in *.
  rewrite (bool_decide_eq_true_2 (_ > 1)) by lia. simpl.
  by rewrite bool_decide_eq_true_2 by lia.
Qed.

Lemma rebalance_log_LR lv ll lr lh :
  1 < b → l = Node lv ll lr lh → lv < value →
  rebalance_log nv l r value =
    '(l', log1) ← _rotate_left_log l;
    '(n', log2) ← _rotate_right_log (Node nv l' r h);
    Some (n', log1 ++ log2).
Proof.
  subst b h. intros Hb -> Hv. unfold rebalance_log. simpl in *.
  rewrite (bool_decide_eq_true_2 (_ > 1)) by lia. simpl.
  rewrite (bool_decide_eq_false_2 (value < lv)) by lia.
  rewrite (bool_decide_eq_false_2 (_ < -1)) by lia. simpl.
  by rewrite (bool_decide_eq_true_2 (value > lv)) by lia.
Qed.

Lemma rebalance_log_RR rv rl rr rh :
  b < -1 → r = Node rv rl rr rh → rv < value →
  rebalance_log nv l r value = _rotate_left_log (Node nv l r h).
Proof.
  subst b h. intros Hb -> Hv. unfold rebalance_log. simpl in *.
  rewrite (bool_decide_eq_false_2 (_ > 1)) by lia. simpl.
  rewrite (bool_decide_eq_true_2 (_ < -1)) by lia. simpl.
  by rewrite (bool_decide_eq_true_2 (value > rv)) by lia.
Qed.

Lemma rebalance_log_RL rv rl rr rh :
  b < -1 → r = Node rv rl rr rh → value < rv →
  rebalance_log nv l r value =
    '(r', log1) ← _rotate_right_log r;
    '(n', log2) ← _rotate_left_log (Node nv l r' h);
    Some (n', log1 ++ log2).
Proof.
  subst b h. intros Hb -> Hv. unfold rebalance_log. simpl in *.
  rewrite (bool_decide_eq_false_2 (_ > 1)) by lia. simpl.
  rewrite (bool_decide_eq_true_2 (_ < -1)) by lia. simpl.
  rewrite (bool_decide_eq_false_2 (value > rv)) by lia.
  by rewrite (bool_decide_eq_true_2 (value < rv)) by lia.
Qed.
End rebalance_log_cases.

(** The record left by the rebalancing of a node made too heavy on the
    left by the insertion: one right rotation at the node, or a left
    rotation at its left child followed by a right rotation at the node. *)
Lemma rebalance_log_left nv l r value :
  heights_ok l → heights_ok r →
  true_height l = true_height r + 2 → steep value l →
  ∃ n' lv, attr_value l = Some lv ∧
    (rebalance_log nv l r value = Some (n', [RotateRight nv]) ∨
     rebalance_log nv l r value = Some (n', [RotateLeft lv; RotateRight nv])).
Proof.
  intros Hl Hr Hh Hs.
  pose proof (true_height_nonneg r) as Hr0.
  assert (1 < _get_height l - _get_height r) as Hb
    by (rewrite !get_height_ok by done; lia).
  destruct l as [|lv ll lr lh]; [done|].
  destruct Hs as [[-> ->]|[[Hv Hs]|[Hv Hs]]].
  - simpl in Hh. lia.
  - erewrite rebalance_log_LL; [|done..]. eexists _, lv. split; [done|]. by left.
  - erewrite rebalance_log_LR; [|done..].
    pose proof (true_height_nonneg ll) as Hll0.
    destruct lr as [|x a c xh]; [simpl in Hs; lia|].
    eexists _, lv. split; [done|]. by right.
Qed.

Lemma rebalance_log_right nv l r value :
  heights_ok l → heights_ok r →
  true_height r = true_height l + 2 → steep value r →
  ∃ n' rv, attr_value r = Some rv ∧
    (rebalance_log nv l r value = Some (n', [RotateLeft nv]) ∨
     rebalance_log nv l r value = Some (n', [RotateRight rv; RotateLeft nv])).
Proof.
  intros Hl Hr Hh Hs.
  pose proof (true_height_nonneg l) as Hl0.
  assert (_get_height l - _get_height r < -1) as Hb
    by (rewrite !get_height_ok by done; lia).
  destruct r as [|rv rl rr rh]; [done|].
  destruct Hs as [[-> ->]|[[Hv Hs]|[Hv Hs]]].
  - simpl in Hh. lia.
  - erewrite rebalance_log_RL; [|done..].
    pose proof (true_height_nonneg rr) as Hrr0.
    destruct rl as [|x a c xh]; [simpl in Hs; lia|].
    eexists _, rv. split; [done|]. by right.
  - erewrite rebalance_log_RR; [|done..]. eexists _, rv. split; [done|]. by left.
Qed.

Lemma one_rebalancing_below_left v l r h log :
  one_rebalancing l log → one_rebalancing (Node v l r h) log.
Proof.
  destruct 1; constructor; simpl; rewrite ?elem_of_app; auto;
    by constructor.
Qed.

Lemma one_rebalancing_below_right v l r h log :
  one_rebalancing r log → one_rebalancing (Node v l r h) log.
Proof.
  destruct 1; constructor; simpl; rewrite ?elem_of_app, ?elem_of_cons; auto;
    by constructor.
Qed.

Lemma insert_log_avl n value :
  heights_ok n → balanced n →
  ∃ n' log, _insert_log n value = Some (n', log) ∧
            one_rebalancing n log ∧
            (log ≠ [] → true_height n' = true_height n) ∧
            (log = [] → n ≠ Absent → attr_value n' = attr_value n) ∧
            heights_ok n' ∧ balanced n' ∧
            (true_height n' = true_height n ∨
             (true_height n' = true_height n + 1 ∧ steep value n')).
Proof.
  induction n as [|nv l IHl r IHr h]; intros Hok Hbal.
  { exists (Node_init value), []. simpl. repeat split; try done; try lia.
    - constructor.
    - right. split; [lia|]. by left. }
  destruct Hok as (Hh & Hl & Hr). destruct Hbal as (Hb & Bl & Br).
  simpl. destruct (decide (value < nv)) as [Hlt|Hge].
  - destruct (IHl Hl Bl)
      as (l' & log1 & -> & Hone & Hsame & Hroot & Hl' & Bl' & Hgrow).
    cbn [mbind option_bind].
    pose proof (rebalance_log_erase nv l' r value) as Herase.
    destruct (decide (Z.abs (true_height l' - true_height r) ≤ 1)) as [Hlev|Hun].
    + rewrite rebalance_log_none by (rewrite !get_height_ok by done; lia).
      simpl. rewrite app_nil_r, !get_height_ok by done.
      eexists _, _. split; [done|]. simpl. repeat split; try done.
      * by apply one_rebalancing_below_left.
      * intros Hne. specialize (Hsame Hne). lia.
      * destruct Hgrow as [Heq|[Heq Hs]]; [left; lia|].
        destruct (decide (true_height l' = true_height r + 1)); [|left; lia].
        right. split; [lia|]. right. left. done.
    + destruct Hgrow as [Heq|[Heq Hs]]; [lia|].
      destruct log1 as [|ro log1]; [|specialize (Hsame ltac:(done)); lia].
      assert (l ≠ Absent) as Hlne.
      { intros ->. pose proof (true_height_nonneg r). simpl in *. lia. }
      specialize (Hroot eq_refl Hlne).
      destruct (rebalance_left nv l' r value) as (n' & Hreb & Hn' & Bn' & Hth);
        [done..|lia|done|].
      destruct (rebalance_log_left nv l' r value) as (n2 & lv & Hlv & Hlog);
        [done..|lia|done|].
      assert (left_edge (Node nv l r h) nv lv) as Hedge.
      { rewrite Hroot in Hlv. destruct l; simplify_eq/=. constructor. }
      rewrite Hreb in Herase.
      destruct Hlog as [Hlog|Hlog]; rewrite Hlog in Herase |- *;
        simpl in Herase; simplify_eq; simpl;
        (eexists _, _; split; [done|]); repeat split; try done;
        try (left; lia); try lia.
      * apply rebalancing_right. simpl. rewrite elem_of_app, elem_of_cons. tauto.
      * by apply rebalancing_left_right.
  - destruct (decide (value > nv)) as [Hgt|Heq].
    + destruct (IHr Hr Br)
        as (r' & log1 & -> & Hone & Hsame & Hroot & Hr' & Br' & Hgrow).
      cbn [mbind option_bind].
      pose proof (rebalance_log_erase nv l r' value) as Herase.
      destruct (decide (Z.abs (true_height l - true_height r') ≤ 1)) as [Hlev|Hun].
      * rewrite rebalance_log_none by (rewrite !get_height_ok by done; lia).
        simpl. rewrite app_nil_r, !get_height_ok by done.
        eexists _, _. split; [done|]. simpl. repeat split; try done.
        -- by apply one_rebalancing_below_right.
        -- intros Hne. specialize (Hsame Hne). lia.
        -- destruct Hgrow as [Heq|[Heq Hs]]; [left; lia|].
           destruct (decide (true_height r' = true_height l + 1)); [|left; lia].
           right. split; [lia|]. right. right. split; [lia|done].
      * destruct Hgrow as [Heq|[Heq Hs]]; [lia|].
        destruct log1 as [|ro log1]; [|specialize (Hsame ltac:(done)); lia].
        assert (r ≠ Absent) as Hrne.
        { intros ->. pose proof (true_height_nonneg l). simpl in *. lia. }
        specialize (Hroot eq_refl Hrne).
        destruct (rebalance_right nv l r' value) as (n' & Hreb & Hn' & Bn' & Hth);
          [done..|lia|done|].
        destruct (rebalance_log_right nv l r' value) as (n2 & rv & Hrv & Hlog);
          [done..|lia|done|].
        assert (right_edge (Node nv l r h) nv rv) as Hedge.
        { rewrite Hroot in Hrv. destruct r; simplify_eq/=. constructor. }
        rewrite Hreb in Herase.
        destruct Hlog as [Hlog|Hlog]; rewrite Hlog in Herase |- *;
          simpl in Herase; simplify_eq; simpl;
          (eexists _, _; split; [done|]); repeat split; try done;
          try (left; lia); try lia.
        -- apply rebalancing_left. simpl. rewrite elem_of_app, elem_of_cons. tauto.
        -- by apply rebalancing_right_left.
    + exists (Node nv l r h), []. simpl. repeat split; try done; [constructor|by left].
Qed.

(** X5. One insertion into a tree with correct heights and AVL balance
    rebalances at most once.  The rotations it performs are none, or one
    rotation at a node of the tree, or the two rotations of one double
    rotation: a left rotation at the left child of a node followed by a
    right rotation at that node, or the mirror image.  When it rotates,
    the height of the tree is the same after the insertion as before. *)
Theorem insert_rotates_once (n : node) (value : Z) :
  heights_ok n → balanced n →
  ∃ n' log, _insert_log n value = Some (n', log) ∧
            _insert n value = Some n' ∧
            one_rebalancing n log ∧
            (log ≠ [] → true_height n' = true_height n).
Proof.
  intros Hok Hbal.
  destruct (insert_log_avl n value Hok Hbal) as (n' & log & Hlog & Hone & Hsame & _).
  exists n', log. repeat split; try done.
  rewrite <- insert_log_erase, Hlog. done.
Qed.

Lemma insert_rotates_once_witness :
  ∃ n' log, _insert_log (root tree_10_20) 15 = Some (n', log) ∧
            _insert (root tree_10_20) 15 = Some n' ∧
            one_rebalancing (root tree_10_20) log ∧
            (log ≠ [] → true_height n' = true_height (root tree_10_20)).
Proof. apply (insert_rotates_once (root tree_10_20) 15); inv_concrete. Defined.

(** The record on the three inputs of the witnesses: a double rotation at
    20 and 10, a single one at 10, none. *)
Example insert_log_samples :
  snd <$> _insert_log (root tree_10_20) 15 = Some [RotateRight 20; RotateLeft 10] ∧
  snd <$> _insert_log (root tree_10_20) 30 = Some [RotateLeft 10] ∧
  snd <$> _insert_log (root tree_10_20) 5 = Some [].
Proof. repeat split. Qed.

(** ** More on the edge list *)

Lemma preorder_keys n : preorder n ≡ₚ keys n.
Proof.
  induction n as [|v l IHl r IHr h]; simpl; [done|].
  rewrite IHl, IHr. apply Permutation_middle.
Qed.

Lemma preorder_edges_children n :
  (preorder_edges n).*2 = tail (preorder n).
Proof.
  induction n as [|v l IHl r IHr h]; [done|].
  cbn [preorder_edges preorder tail]. rewrite fmap_app.
  destruct l as [|lv ll lr lh], r as [|rv rl rr rh];
    rewrite ?fmap_cons, ?IHl, ?IHr; done.
Qed.

Lemma child_edge_keys n p c : child_edge n p c → p ∈ keys n ∧ c ∈ keys n.
Proof.
  induction 1 as [| |v l r h p c _ [IHp IHc]|v l r h p c _ [IHp IHc]]; simpl;
    rewrite ?elem_of_app, ?elem_of_cons, ?elem_of_app, ?elem_of_cons; tauto.
Qed.

Lemma generate_edges_eq T : generate_edges T = preorder_edges (root T).
Proof. unfold generate_edges. by rewrite generate_edges_acc. Qed.

(** X6. The children of the edges returned by [generate_edges], in the
    order of the list, are the pre-order sequence of the keys without its
    first element, the root; every parent of an edge is a key of the
    tree. *)
Theorem generate_edges_children (T : AVLTree) :
  (generate_edges T).*2 = tail (preorder (root T)) ∧
  (∀ p, p ∈ (generate_edges T).*1 → p ∈ keys (root T)).
Proof.
  rewrite generate_edges_eq. split; [apply preorder_edges_children|].
  intros p [[p' c] [-> Hin]]%list_elem_of_fmap. simpl.
  by apply preorder_edges_child, child_edge_keys in Hin as [? _].
Qed.

Lemma NoDup_snd_functional (es : list (Z * Z)) p1 p2 c :
  NoDup es.*2 → (p1, c) ∈ es → (p2, c) ∈ es → p1 = p2.
Proof.
  induction es as [|[p c'] es IH]; simpl.
  { intros _ H. by apply elem_of_nil in H. }
  rewrite NoDup_cons. intros [Hc Hnd] H1 H2.
  apply elem_of_cons in H1, H2. destruct H1 as [E1|H1], H2 as [E2|H2].
  - congruence.
  - simplify_eq. exfalso. apply Hc.
    by apply (list_elem_of_fmap_2 snd _ (p2, c')).
  - simplify_eq. exfalso. apply Hc.
    by apply (list_elem_of_fmap_2 snd _ (p1, c')).
  - by apply IH.
Qed.

Lemma preorder_edges_NoDup n : unique n → NoDup (preorder_edges n).
Proof.
  intros Hu. unfold unique in Hu. rewrite <- preorder_keys in Hu.
  apply (NoDup_fmap_1 snd). rewrite preorder_edges_children.
  destruct (preorder n); [constructor|]. by apply NoDup_cons in Hu as [_ ?].
Qed.

(** X7. When no key occurs twice in the tree, no edge is returned twice,
    every key is the child of at most one edge, the key of the root is the
    child of none, and every other key is the child of one. *)
Theorem generate_edges_parent_unique (T : AVLTree) :
  unique (root T) →
  NoDup (generate_edges T) ∧
  (∀ p1 p2 c, (p1, c) ∈ generate_edges T → (p2, c) ∈ generate_edges T →
              p1 = p2) ∧
  (∀ v, attr_value (root T) = Some v →
        (v ∉ (generate_edges T).*2) ∧
        ∀ k, k ∈ keys (root T) → k ≠ v → k ∈ (generate_edges T).*2).
Proof.
  intros Hu. unfold unique in Hu. rewrite <- preorder_keys in Hu.
  assert ((generate_edges T).*2 = tail (preorder (root T))) as Hc
    by (rewrite generate_edges_eq; apply preorder_edges_children).
  assert (NoDup (generate_edges T).*2) as Hnd.
  { rewrite Hc. destruct (preorder (root T)); [constructor|].
    by apply NoDup_cons in Hu as [_ ?]. }
  split; [by eapply NoDup_fmap_1|].
  split; [intros p1 p2 c; by apply NoDup_snd_functional|].
  intros v Hv. rewrite Hc.
  destruct (root T) as [|v' l r h]; simplify_eq/=.
  apply NoDup_cons in Hu as [Hv _]. split; [done|].
  intros k Hk Hne.
  assert (k ∈ v :: preorder l ++ preorder r) as Hk'.
  { change (k ∈ preorder (Node v l r h)). by rewrite preorder_keys. }
  apply elem_of_cons in Hk' as [->|?]; done.
Qed.

Lemma generate_edges_parent_unique_witness :
  NoDup (generate_edges tree_10_20_30) ∧
  (∀ p1 p2 c, (p1, c) ∈ generate_edges tree_10_20_30 →
              (p2, c) ∈ generate_edges tree_10_20_30 → p1 = p2) ∧
  (∀ v, attr_value (root tree_10_20_30) = Some v →
        (v ∉ (generate_edges tree_10_20_30).*2) ∧
        ∀ k, k ∈ keys (root tree_10_20_30) → k ≠ v →
             k ∈ (generate_edges tree_10_20_30).*2).
Proof.
  apply (generate_edges_parent_unique tree_10_20_30).
  apply sorted_lt_NoDup. repeat constructor; lia.
Defined.

(** X8. After the insertion of any keys, repeated or not, into an empty
    tree the number of nodes is the number of distinct keys, and
    [generate_edges] returns one edge less than that when there is a key
    at all. *)
Theorem edges_count_distinct (values : list Z) :
  ∃ T, insert_all AVLTree_init values = Some T ∧
       size (root T) = base.size (list_to_set values : gset Z) ∧
       (values ≠ [] →
        S (length (generate_edges T)) = base.size (list_to_set values : gset Z)).
Proof.
  destruct (insert_all_inv AVLTree_init values avl_inv_init)
    as (T & HT & _ & _ & _ & Hu).
  exists T. split; [done|].
  assert (size (root T) = base.size (list_to_set values : gset Z)) as Hsize.
  { rewrite <- length_keys, <- (size_list_to_set (C:=gset Z)) by done.
    f_equal. apply set_eq. intros k. rewrite !elem_of_list_to_set.
    rewrite (insert_all_keys_elem _ _ _ HT k). simpl. rewrite elem_of_nil. tauto. }
  split; [done|]. intros Hne. rewrite <- Hsize.
  rewrite generate_edges_eq, preorder_edges_length.
  destruct (root T) eqn:Hr; simpl; [|lia].
  destruct values as [|v vs]; [done|].
  pose proof (insert_all_keys_elem _ _ _ HT v) as Hk.
  rewrite Hr in Hk. simpl in Hk. rewrite elem_of_cons, elem_of_nil in Hk. tauto.
Qed.

Lemma edges_count_distinct_witness :
  ∃ T, insert_all AVLTree_init [10; 20; 10; 30; 20] = Some T ∧
       size (root T) = base.size (list_to_set [10; 20; 10; 30; 20] : gset Z) ∧
       ([10; 20; 10; 30; 20] ≠ [] →
        S (length (generate_edges T)) =
        base.size (list_to_set [10; 20; 10; 30; 20] : gset Z)).
Proof. apply (edges_count_distinct [10; 20; 10; 30; 20]). Defined.

(** ** Height from below *)

Lemma size_lt_pow_height n : Z.of_nat (size n) + 1 ≤ 2 ^ true_height n.
Proof.
  induction n as [|v l IHl r IHr h]; [done|].
  pose proof (true_height_nonneg l). pose proof (true_height_nonneg r).
  cbn [size true_height]. rewrite Z.pow_add_r, Z.pow_1_r by lia.
  assert (2 ^ true_height l ≤ 2 ^ Z.max (true_height l) (true_height r))
    by (apply Z.pow_le_mono_r; lia).
  assert (2 ^ true_height r ≤ 2 ^ Z.max (true_height l) (true_height r))
    by (apply Z.pow_le_mono_r; lia).
  lia.
Qed.

(** X9. The tree built from [n] distinct keys has a height [h] with
    [n < 2 ^ h]: it cannot be lower than [log2 (n + 1)]. *)
Theorem height_lower_bound (values : list Z) (T : AVLTree) :
  NoDup values → insert_all AVLTree_init values = Some T →
  Z.of_nat (length values) < 2 ^ true_height (root T).
Proof.
  intros Hnd HT. destruct (insert_all_distinct values T Hnd HT) as [_ Hsize].
  pose proof (size_lt_pow_height (root T)). lia.
Qed.

Lemma height_lower_bound_witness :
  Z.of_nat (length [10; 20; 30]) < 2 ^ true_height (root tree_10_20_30).
Proof.
  apply (height_lower_bound [10; 20; 30] tree_10_20_30); [|reflexivity].
  apply sorted_lt_NoDup. repeat constructor; lia.
Defined.

(** ** The graph handed to the drawing functions *)

Lemma add_edges_from_nodes g es :
  nodes (add_edges_from g es) =
  nodes g ∪ list_to_set es.*1 ∪ list_to_set es.*2.
Proof.
  unfold add_edges_from. revert g.
  induction es as [|[u v] es IH]; intros g; simpl.
  { by rewrite !(right_id_L ∅ (∪)). }
  rewrite IH. simpl. apply set_eq. intros x.
  rewrite !elem_of_union, !elem_of_singleton. tauto.
Qed.

Lemma add_edges_from_edges g es :
  edges (add_edges_from g es) = edges g ∪ list_to_set es.
Proof.
  unfold add_edges_from. revert g.
  induction es as [|e es IH]; intros g; simpl.
  { by rewrite (right_id_L ∅ (∪)). }
  rewrite IH. simpl. apply set_eq. intros x.
  rewrite !elem_of_union, !elem_of_singleton. tauto.
Qed.

Lemma preorder_edges_root v l r h :
  l ≠ Absent ∨ r ≠ Absent → v ∈ (preorder_edges (Node v l r h)).*1.
Proof.
  intros Hc. cbn [preorder_edges]. rewrite fmap_app, elem_of_app.
  destruct l as [|lv ll lr lh]; [|left; by left].
  destruct r as [|rv rl rr rh]; [|right; by left].
  by destruct Hc.
Qed.

Lemma preorder_edges_endpoints n k :
  (2 ≤ size n)%nat →
  k ∈ (preorder_edges n).*1 ∨ k ∈ (preorder_edges n).*2 ↔ k ∈ keys n.
Proof.
  intros Hsize. split.
  - intros [[[p c] [-> Hin]]%list_elem_of_fmap|[[p c] [-> Hin]]%list_elem_of_fmap];
      apply preorder_edges_child, child_edge_keys in Hin as [? ?]; done.
  - intros Hk. rewrite <- preorder_keys in Hk.
    rewrite preorder_edges_children.
    destruct n as [|v l r h]; [simpl in Hsize; lia|].
    cbn [preorder tail] in *. apply elem_of_cons in Hk as [->|Hk]; [|by right].
    left. apply preorder_edges_root.
    destruct l, r; simpl in Hsize; try lia; auto.
Qed.

(** X10. [display_tree] adds one output and leaves the tree as it is.  On
    an empty tree the output is the warning.  On a tree of one node it is
    the drawing of a graph with no node and no edge: the only key is not
    drawn.  On a tree of two nodes or more the nodes of the graph drawn
    are the keys of the tree and its edges those of [generate_edges], as
    many as there are nodes but one when no key occurs twice. *)
Theorem display_tree_graph (self : BinaryTreeApp) :
  ∃ o, outputs (display_tree self) = outputs self ++ [o] ∧
       tree (display_tree self) = tree self ∧
       (size (root (tree self)) = 0%nat → o = ShowWarning) ∧
       (size (root (tree self)) = 1%nat → o = Draw DiGraph_init) ∧
       ((2 ≤ size (root (tree self)))%nat →
        ∃ g, o = Draw g ∧
             nodes g = key_set (root (tree self)) ∧
             edges g = list_to_set (generate_edges (tree self)) ∧
             (unique (root (tree self)) →
              S (base.size (edges g)) = size (root (tree self)))).
Proof.
  unfold display_tree.
  destruct (root (tree self)) as [|v l r h] eqn:Hroot.
  { eexists. split; [done|]. split; [done|]. simpl. repeat split; try done; lia. }
  eexists. split; [done|]. split; [done|].
  split; [done|]. rewrite generate_edges_eq, Hroot. split.
  - intros Hs. destruct l, r; simpl in Hs; try lia. done.
  - intros Hs. eexists. split; [done|].
    rewrite add_edges_from_nodes, add_edges_from_edges.
    cbn [nodes edges DiGraph_init].
    split; [|split].
    + apply set_eq. intros k.
      rewrite !elem_of_union, !elem_of_list_to_set, elem_of_key_set.
      rewrite <- (preorder_edges_endpoints (Node v l r h) k Hs).
      rewrite elem_of_empty. tauto.
    + by rewrite (left_id_L ∅ (∪)).
    + intros Hu. rewrite (left_id_L ∅ (∪)).
      pose proof (preorder_edges_NoDup (Node v l r h) Hu) as Hnd.
      rewrite size_list_to_set by done.
      rewrite preorder_edges_length. lia.
Qed.

Lemma display_tree_graph_witness :
  ∃ g, outputs (display_tree app_10_20_30) = outputs app_10_20_30 ++ [Draw g] ∧
       nodes g = key_set (root (tree app_10_20_30)) ∧
       edges g = list_to_set (generate_edges (tree app_10_20_30)) ∧
       S (base.size (edges g)) = size (root (tree app_10_20_30)).
Proof.
  destruct (display_tree_graph app_10_20_30) as (o & Ho & _ & _ & _ & H2).
  destruct H2 as (g & -> & Hn & He & Hs); [simpl; lia|].
  exists g. repeat split; try done. apply Hs.
  apply sorted_lt_NoDup. repeat constructor; lia.
Defined.

(** ** The callbacks, over any sequence of user actions *)

Lemma shown_values_app outs outs' :
  shown_values (outs ++ outs') = shown_values outs ++ shown_values outs'.
Proof.
  induction outs as [|[v| | |g] outs IH]; simpl; [done|..]; by rewrite ?IH.
Qed.

Lemma insert_key_set_eq (T T' : AVLTree) (k : Z) :
  insert T k = Some T' → key_set (root T') = key_set (root T) ∪ {[k]}.
Proof.
  unfold insert. intros H.
  destruct (_insert (root T) k) as [n'|] eqn:Hn; simplify_eq/=.
  apply set_eq. intros x.
  rewrite elem_of_union, elem_of_singleton, !elem_of_key_set.
  rewrite (insert_keys_elem _ _ _ Hn). tauto.
Qed.

Lemma handle_inv int_of self e :
  avl_inv (root (tree self)) →
  key_set (root (tree self)) = list_to_set (shown_values (outputs self)) →
  ∃ self', handle int_of self e = Some self' ∧
           avl_inv (root (tree self')) ∧
           key_set (root (tree self')) =
             list_to_set (shown_values (outputs self')).
Proof.
  intros Hinv Hkeys. destruct e as [text| |]; simpl.
  - by eexists.
  - unfold insert_number. destruct (int_of (number_entry self)) as [value|].
    + destruct (insert_inv (tree self) value Hinv) as (T' & HT' & Hinv').
      rewrite HT'. eexists. split; [done|]. simpl. split; [done|].
      rewrite (insert_key_set_eq _ _ _ HT'), Hkeys, shown_values_app. simpl.
      rewrite list_to_set_app_L. simpl. by rewrite (right_id_L ∅ (∪)).
    + eexists. split; [done|]. simpl. split; [done|].
      rewrite shown_values_app. simpl. by rewrite app_nil_r.
  - eexists. split; [done|]. unfold display_tree.
    destruct (root (tree self)) eqn:Hroot; simpl; rewrite Hroot;
      (split; [done|]); rewrite shown_values_app; simpl; by rewrite app_nil_r.
Qed.

Lemma mainloop_inv int_of events self :
  avl_inv (root (tree self)) →
  key_set (root (tree self)) = list_to_set (shown_values (outputs self)) →
  ∃ self', mainloop int_of self events = Some self' ∧
           avl_inv (root (tree self')) ∧
           key_set (root (tree self')) =
             list_to_set (shown_values (outputs self')).
Proof.
  revert self. induction events as [|e es IH]; intros self Hinv Hkeys; simpl.
  { by eexists. }
  destruct (handle_inv int_of self e Hinv Hkeys) as (self1 & -> & Hinv1 & Hkeys1).
  simpl. by apply IH.
Qed.

(** X11. Whatever the user types and clicks, and whatever [int] accepts,
    no callback lets an exception escape; the tree of the application
    satisfies the four invariants, and its keys are the numbers for which
    a success message has been shown. *)
Theorem mainloop_safe (int_of : string → option Z) (events : list event) :
  ∃ self, mainloop int_of BinaryTreeApp_init events = Some self ∧
          avl_inv (root (tree self)) ∧
          key_set (root (tree self)) =
            list_to_set (shown_values (outputs self)).
Proof. apply mainloop_inv; [apply avl_inv_init|done]. Qed.

(** X12. In a state reached by user actions, the button that displays the
    tree shows the warning of the empty tree when no number has been
    inserted with success so far, and only then. *)
Theorem display_warns_iff_nothing_inserted
    (int_of : string → option Z) (events : list event) (self : BinaryTreeApp) :
  mainloop int_of BinaryTreeApp_init events = Some self →
  outputs (display_tree self) = outputs self ++ [ShowWarning] ↔
  shown_values (outputs self) = [].
Proof.
  intros Hrun.
  destruct (mainloop_inv int_of events BinaryTreeApp_init avl_inv_init eq_refl)
    as (self' & Hrun' & _ & Hkeys).
  rewrite Hrun in Hrun'. simplify_eq.
  unfold display_tree. destruct (root (tree self')) as [|v l r h] eqn:Hroot.
  - split; [intros _|done].
    destruct (shown_values (outputs self')) as [|x xs]; [done|].
    assert (x ∈ key_set Absent) as Hx by (rewrite Hkeys, elem_of_list_to_set; by left).
    by apply elem_of_key_set, elem_of_nil in Hx.
  - split.
    + intros [= ]%(inj (app _)).
    + intros Hnil. rewrite Hnil in Hkeys.
      assert (v ∈ key_set (Node v l r h)) as Hv.
      { apply elem_of_key_set. simpl. rewrite elem_of_app, elem_of_cons. tauto. }
      rewrite Hkeys in Hv. by apply elem_of_empty in Hv.
Qed.

Lemma display_warns_iff_nothing_inserted_witness :
  outputs (display_tree app_10_20_30) = outputs app_10_20_30 ++ [ShowWarning] ↔
  shown_values (outputs app_10_20_30) = [].
Proof.
  apply (display_warns_iff_nothing_inserted int_of_digits
           [TypeText "10"; ClickInsert; TypeText "20"; ClickInsert;
            TypeText "30"; ClickInsert]).
  reflexivity.
Defined.

(** ** What [_get_height] and [_get_balance] return on the trees built *)

Lemma subtree_inv s n :
  subtree s n → heights_ok n → balanced n → heights_ok s ∧ balanced s.
Proof.
  induction 1 as [|v l r h _ IH|v l r h _ IH]; [done|..];
    intros (_ & Hl & Hr) (_ & Bl & Br); auto.
Qed.

(** X13. In a tree built by insertions, at every node [_get_height]
    returns the number of nodes on the longest path from that node down to
    a leaf, and [_get_balance] returns -1, 0 or 1. *)
Theorem get_balance_range (values : list Z) (T : AVLTree) (s : node) :
  insert_all AVLTree_init values = Some T → subtree s (root T) →
  _get_height s = true_height s ∧ -1 ≤ _get_balance s ≤ 1.
Proof.
  intros HT Hs.
  destruct (insert_all_inv AVLTree_init values avl_inv_init)
    as (T' & HT' & _ & Hbal & Hok & _).
  rewrite HT in HT'. simplify_eq.
  destruct (subtree_inv _ _ Hs Hok Hbal) as [Hoks Hbals].
  split; [by apply get_height_ok|].
  destruct s as [|v l r h]; simpl; [lia|].
  destruct Hoks as (_ & Hl & Hr). destruct Hbals as (Hd & _).
  rewrite !get_height_ok by done. lia.
Qed.

Lemma get_balance_range_witness :
  _get_height (Node_init 30) = true_height (Node_init 30) ∧
  -1 ≤ _get_balance (Node_init 30) ≤ 1.
Proof.
  apply (get_balance_range [10; 20; 30] tree_10_20_30 (Node_init 30));
    [reflexivity|].
  apply subtree_right, subtree_refl.
Defined.
